(** * spotify-to-image: the analysis store, the streaming parser, the retry
      loop and the image searcher, embedded from the Python sources.

    Python [str] values are modelled as lists of characters whose code
    points lie below 256; Rocq's [ascii] has exactly these 256 values, so
    [isspace] and [lower] below are Python's on that range. *)

From Stdlib Require Import ZArith QArith Qminmax Ascii String List Bool Lia.
From Stdlib Require Import Floats SpecFloat.
From stdpp Require Import gmap strings list fin_maps sorting.

Open Scope nat_scope.
Open Scope list_scope.

(** ** Python strings *)

Module PyStr.

Definition str := list ascii.

(** A literal: [py "LYRIC:"]. *)
Definition py (s : string) : str := list_ascii_of_string s.

Definition code (c : ascii) : nat := nat_of_ascii c.

Definition between (lo hi n : nat) : bool := (lo <=? n) && (n <=? hi).

(** [str.isspace] on one character: tab..CR, FS..US, space, NEL, NBSP. *)
Definition isspace (c : ascii) : bool :=
  between 9 13 (code c) || between 28 32 (code c)
  || (code c =? 133) || (code c =? 160).

(** [str.lower] on one character: A..Z and the Latin-1 capitals. *)
Definition lower_char (c : ascii) : ascii :=
  if between 65 90 (code c) || between 192 214 (code c)
     || between 216 222 (code c)
  then ascii_of_nat (code c + 32) else c.

Definition lower (s : str) : str := map lower_char s.

(** Truth value of a string: [not s] is [falsy s]. *)
Definition falsy (s : str) : bool :=
  match s with [] => true | _ :: _ => false end.

Fixpoint lstrip (s : str) : str :=
  match s with
  | [] => []
  | c :: s' => if isspace c then lstrip s' else s
  end.

Definition rstrip (s : str) : str := rev (lstrip (rev s)).

(** [s.strip()] *)
Definition strip (s : str) : str := rstrip (lstrip s).

(** [s.split()] with no separator: maximal runs of non-space characters.
    [cur] holds the run being read, reversed. *)
Fixpoint split_ws_from (cur : str) (s : str) : list str :=
  match s with
  | [] => if falsy cur then [] else [rev cur]
  | c :: s' =>
      if isspace c
      then (if falsy cur then split_ws_from [] s'
            else rev cur :: split_ws_from [] s')
      else split_ws_from (c :: cur) s'
  end.

Definition split_ws (s : str) : list str := split_ws_from [] s.

(** [sep.join(parts)] *)
Fixpoint join (sep : str) (parts : list str) : str :=
  match parts with
  | [] => []
  | [p] => p
  | p :: ps => p ++ sep ++ join sep ps
  end.

(** [s.split(c)] for a one-character separator: always at least one piece. *)
Fixpoint split_char_from (c : ascii) (cur : str) (s : str) : list str :=
  match s with
  | [] => [rev cur]
  | x :: s' =>
      if Ascii.eqb x c then rev cur :: split_char_from c [] s'
      else split_char_from c (x :: cur) s'
  end.

Definition split_char (c : ascii) (s : str) : list str :=
  split_char_from c [] s.

(** [s.startswith(p)] *)
Fixpoint startswith (p s : str) : bool :=
  match p, s with
  | [], _ => true
  | _ :: _, [] => false
  | a :: p', b :: s' => Ascii.eqb a b && startswith p' s'
  end.

(** [s.endswith(p)] *)
Definition endswith (p s : str) : bool := startswith (rev p) (rev s).

(** [sub in s] *)
Fixpoint contains (sub s : str) : bool :=
  startswith sub s ||
  match s with
  | [] => false
  | _ :: s' => contains sub s'
  end.

(** [s.split(sep, 1)] when [sep in s]: the text before the first occurrence
    and the text after it; [None] when [sep] does not occur. *)
Fixpoint split_first (sep s : str) : option (str * str) :=
  if startswith sep s then Some ([], drop (length sep) s)
  else match s with
       | [] => None
       | c :: s' =>
           match split_first sep s' with
           | Some (before, after) => Some (c :: before, after)
           | None => None
           end
       end.

(** [s.translate(str.maketrans('', '', deleted))] *)
Definition translate_delete (deleted : str) (s : str) : str :=
  filter (fun c => ¬ (c ∈ deleted)) s.

(** [s.replace(c, '')] for a one-character [c]. *)
Definition remove_char (c : ascii) (s : str) : str :=
  filter (fun x => x ≠ c) s.

Definition dquote : ascii := ascii_of_nat 34.
Definition newline : ascii := ascii_of_nat 10.

(** [string.punctuation] *)
Definition punctuation : str :=
  py "!" ++ [dquote] ++ py "#$%&'()*+,-./:;<=>?@[\]^_`{|}~".

(** A word: not empty and without spaces. *)
Definition word (w : str) : Prop :=
  w ≠ [] ∧ Forall (λ c, isspace c = false) w.

End PyStr.

Import PyStr.

(** ** song_analysis_storage.py *)

Module Storage.

(** [analysis_data]: the dict handed to [add_analysis_line]; a key that is
    missing or bound to [None] reads as [None] through [.get]. *)
Record analysis_data := mk_analysis {
  lyric : option str;
  sentence : option str
}.

(** [not x] for an optional string. *)
Definition absent_or_empty (o : option str) : bool :=
  match o with
  | Some s => falsy s
  | None => true
  end.

Record SongAnalysisStorage := mk_storage {
  song_data : gmap str (gmap str str);
  current_song_title : option str
}.

(** [__init__] *)
Definition __init__ : SongAnalysisStorage :=
  {| song_data := ∅; current_song_title := None |}.

(** [_normalize_lyric] *)
Definition _normalize_lyric (lyric_text : str) : str :=
  if falsy lyric_text then []
  else
    let punctuation_to_remove := remove_char "'"%char punctuation in
    let normalized := translate_delete punctuation_to_remove lyric_text in
    let normalized := strip (lower normalized) in
    join (py " ") (split_ws normalized).

(** [start_new_song] *)
Definition start_new_song (st : SongAnalysisStorage) (song_title : str)
  : SongAnalysisStorage :=
  if falsy song_title then st
  else {| current_song_title := Some song_title;
          song_data := <[song_title := ∅]> (song_data st) |}.

(** [add_analysis_line] *)
Definition add_analysis_line (st : SongAnalysisStorage) (d : analysis_data)
  : SongAnalysisStorage :=
  if absent_or_empty (lyric d) || absent_or_empty (sentence d) then st
  else
    match lyric d, sentence d with
    | Some original_lyric, Some concrete_sentence =>
        let normalized_lyric := _normalize_lyric original_lyric in
        if falsy normalized_lyric then st
        else
          match current_song_title st with
          | None => st
          | Some title =>
              (* a missing table for the current song is re-created *)
              let table := default ∅ (song_data st !! title) in
              {| current_song_title := Some title;
                 song_data :=
                   <[title := <[normalized_lyric := concrete_sentence]> table]>
                     (song_data st) |}
          end
    | _, _ => st
    end.

(** [find_analysis_by_lyric]; an empty table is falsy, like a missing one. *)
Definition find_analysis_by_lyric (st : SongAnalysisStorage)
    (song_title current_lyric_text : str) : option str :=
  if falsy song_title || falsy current_lyric_text then None
  else
    let normalized_lookup := _normalize_lyric current_lyric_text in
    if falsy normalized_lookup then None
    else
      match song_data st !! song_title with
      | Some song_analysis_dict =>
          if decide (song_analysis_dict = ∅) then None
          else song_analysis_dict !! normalized_lookup
      | None => None
      end.

(** [get_current_song_title] *)
Definition get_current_song_title (st : SongAnalysisStorage) : option str :=
  current_song_title st.

(** The record [{'lyric': L, 'sentence': S}]. *)
Definition line (L S : str) : analysis_data :=
  {| lyric := Some L; sentence := Some S |}.

(** Feeding a sequence of records to the store, in order. *)
Definition add_lines (st : SongAnalysisStorage) (ds : list analysis_data)
  : SongAnalysisStorage :=
  foldl add_analysis_line st ds.

(** States the store can be in: the initial one and whatever the two
    mutators make of a reachable state. *)
Inductive reachable : SongAnalysisStorage → Prop :=
  | reach_init : reachable __init__
  | reach_start st t : reachable st → reachable (start_new_song st t)
  | reach_add st d : reachable st → reachable (add_analysis_line st d).

(** [get_analysis_dict_for_song] *)
Definition get_analysis_dict_for_song (st : SongAnalysisStorage)
    (song_title : str) : option (gmap str str) :=
  song_data st !! song_title.

(** [get_all_stored_songs], as the set of the titles it lists. *)
Definition get_all_stored_songs (st : SongAnalysisStorage) : gset str :=
  dom (song_data st).

(** A call of one of the two mutators. *)
Inductive call :=
  | StartNewSong (song_title : str)
  | AddAnalysisLine (analysis : analysis_data).

Definition perform (st : SongAnalysisStorage) (c : call) : SongAnalysisStorage :=
  match c with
  | StartNewSong song_title => start_new_song st song_title
  | AddAnalysisLine analysis => add_analysis_line st analysis
  end.

(** A sequence of calls, in the order the lock serializes them. *)
Definition perform_all (st : SongAnalysisStorage) (calls : list call)
  : SongAnalysisStorage :=
  foldl perform st calls.

(** The characters [_normalize_lyric] deletes. *)
Definition deleted_punctuation : str := remove_char "'"%char punctuation.

(** A character of a normal form: kept by the deletion and by [lower]. *)
Definition normal_char (c : ascii) : Prop :=
  (c ∉ deleted_punctuation) ∧ lower_char c = c.

(** The check that [lower] takes a character that is not deleted to a
    normal character. *)
Definition normal_after_lower (c : ascii) : bool :=
  implb (negb (bool_decide (c ∈ deleted_punctuation)))
    (negb (bool_decide (lower_char c ∈ deleted_punctuation))
     && bool_decide (lower_char (lower_char c) = lower_char c)).

End Storage.

(** ** llm_analysis.py *)

Module LLM.

Import Storage.

Definition MAX_RETRIES : nat := 3.
Definition INITIAL_RETRY_DELAY_SECONDS : Q := 2.
Definition MAX_RETRY_DELAY_SECONDS : Q := 16.

(** The record delimiter. *)
Definition END_MARK : str := py "<<END>>".
Definition LYRIC_PREFIX : str := py "LYRIC:".
Definition SENTENCE_PREFIX : str := py "SENTENCE:".

(** One round of the [for line in lines] loop of [parse_section]. *)
Definition parse_line (result : analysis_data) (line : str) : analysis_data :=
  let line := strip line in
  if startswith LYRIC_PREFIX line then
    {| lyric := Some (strip (drop (length LYRIC_PREFIX) line));
       sentence := sentence result |}
  else if startswith SENTENCE_PREFIX line then
    {| lyric := lyric result;
       sentence := Some (strip (drop (length SENTENCE_PREFIX) line)) |}
  else result.

(** [parse_section] *)
Definition parse_section (section_text : str) : option analysis_data :=
  let section := strip section_text in
  if falsy section then None
  else
    let lines := split_char newline section in
    let result := foldl parse_line {| lyric := None; sentence := None |} lines in
    if negb (absent_or_empty (lyric result))
       && negb (absent_or_empty (sentence result))
    then Some result
    else None.

(** The text a line gives for [prefix], when the line carries it. *)
Definition field_value (prefix line : str) : option str :=
  let line := strip line in
  if startswith prefix line then Some (strip (drop (length prefix) line))
  else None.

(** A section has a non-empty [prefix] line. *)
Definition has_field (prefix section : str) : bool :=
  existsb (fun line => negb (absent_or_empty (field_value prefix line)))
          (split_char newline (strip section)).

(** A chunk of the response stream: the texts of its parts, or [None] when
    reading them raises (then [chunk_text] is the empty string). *)
Definition chunk := option (list str).

Definition chunk_text (c : chunk) : str :=
  match c with
  | Some parts => concat parts
  | None => []
  end.

(** What one [<<END>>] block hands to [storage_callback]. *)
Definition emit_section (section : str) : list analysis_data :=
  if falsy section then []
  else match parse_section section with
       | Some parsed_data => [parsed_data]
       | None => []
       end.

(** The loop [while "<<END>>" in buffer]: the records handed on, in order,
    and the buffer left.  Every round removes the delimiter from the
    buffer, so [length buffer] rounds are enough ([drain]). *)
Fixpoint drain_fuel (fuel : nat) (buffer : str) : list analysis_data * str :=
  match fuel with
  | 0 => ([], buffer)
  | S fuel' =>
      match split_first END_MARK buffer with
      | None => ([], buffer)
      | Some (before, after) =>
          let '(out, rest) := drain_fuel fuel' after in
          (emit_section (strip before) ++ out, rest)
      end
  end.

Definition drain (buffer : str) : list analysis_data * str :=
  drain_fuel (length buffer) buffer.

(** One round of [for chunk in chunk_stream]. *)
Definition feed (state : list analysis_data * str) (c : chunk)
  : list analysis_data * str :=
  let '(out, buffer) := state in
  let '(new, rest) := drain (buffer ++ chunk_text c) in
  (out ++ new, rest).

(** The chunks of a stream consumed one after the other, from an empty
    buffer. *)
Definition feed_all (chunk_stream : list chunk) : list analysis_data * str :=
  foldl feed ([], []) chunk_stream.

(** The code after the loop: the leftover buffer, tried once more. *)
Definition finish (buffer : str) : list analysis_data :=
  let remaining_section := strip buffer in
  if falsy remaining_section then []
  else if contains LYRIC_PREFIX remaining_section
          || contains SENTENCE_PREFIX remaining_section
  then match parse_section remaining_section with
       | Some parsed_data => [parsed_data]
       | None => []
       end
  else [].

(** [_process_stream] on a stream that ends normally: the records handed
    to [storage_callback], in order. *)
Definition _process_stream (chunk_stream : list chunk) : list analysis_data :=
  let '(out, buffer) := feed_all chunk_stream in
  out ++ finish buffer.

Definition total_items_processed (chunk_stream : list chunk) : nat :=
  length (_process_stream chunk_stream).

(** The whole reply of the service, as one text. *)
Definition stream_text (chunk_stream : list chunk) : str :=
  concat (map chunk_text chunk_stream).

(** The parser run on a reply that has arrived whole. *)
Definition process_text (text : str) : list analysis_data :=
  let '(out, buffer) := drain text in out ++ finish buffer.

(** *** The retry loop *)

Inductive api_error :=
  | ServiceUnavailable
  | ResourceExhausted
  | DeadlineExceeded
  | OtherGoogleAPIError
  | OtherException.

(** The first [except] clause of the loop. *)
Definition retriable (e : api_error) : bool :=
  match e with
  | ServiceUnavailable | ResourceExhausted | DeadlineExceeded => true
  | OtherGoogleAPIError | OtherException => false
  end.

(** One call of [generate_content] together with the reading of its
    stream: the chunks read, and whether the stream then ended or raised. *)
Record attempt_run := mk_run {
  delivered : list chunk;
  raised : option api_error
}.

(** The records an attempt hands to [storage_callback]: all of
    [_process_stream] when the stream ends, and the blocks closed so far
    when it raises. *)
Definition stored_by (a : attempt_run) : list analysis_data :=
  match raised a with
  | None => _process_stream (delivered a)
  | Some _ => fst (feed_all (delivered a))
  end.

(** What one round of the loop did: the attempt number, the records its
    stream handed to the callback, the exception that ended it ([None]: the
    stream completed) and the time slept before the next round, if any. *)
Record round := mk_round {
  attempt_no : nat;
  stored : list analysis_data;
  outcome : option api_error;
  slept : option Q
}.

(** [min(current_delay * 2 + (os.urandom(1)[0] / 255.0), MAX_RETRY_DELAY_SECONDS)],
    the byte read from the system taken as given and the division exact. *)
Definition next_delay (current_delay : Q) (random_byte : Byte.byte) : Q :=
  Qmin (current_delay * 2 + (Z.of_N (Byte.to_N random_byte) # 255))
       MAX_RETRY_DELAY_SECONDS.

(** [for attempt in range(MAX_RETRIES + 1)], from round [attempt] on with
    [remaining] rounds left.  [service n] is what the [n]-th call does and
    [urandom n] the byte drawn after it. *)
Fixpoint retry_loop (service : nat → attempt_run) (urandom : nat → Byte.byte)
    (remaining attempt : nat) (current_delay : Q) : list round :=
  match remaining with
  | 0 => []
  | S remaining' =>
      let run := service attempt in
      match raised run with
      | None =>
          (* the stream was read to its end: break *)
          [mk_round attempt (stored_by run) None None]
      | Some e =>
          if retriable e then
            if attempt <? MAX_RETRIES then
              mk_round attempt (stored_by run) (Some e) (Some current_delay)
              :: retry_loop service urandom remaining' (S attempt)
                   (next_delay current_delay (urandom attempt))
            else
              mk_round attempt (stored_by run) (Some e) None
              :: retry_loop service urandom remaining' (S attempt) current_delay
          else
            (* a non-retriable API error or another exception: break *)
            [mk_round attempt (stored_by run) (Some e) None]
      end
  end.

(** [_perform_analysis_thread]: nothing happens without a client. *)
Definition _perform_analysis_thread (client_ready : bool)
    (service : nat → attempt_run) (urandom : nat → Byte.byte) : list round :=
  if client_ready
  then retry_loop service urandom (MAX_RETRIES + 1) 0 INITIAL_RETRY_DELAY_SECONDS
  else [].

(** Rounds in which every round that is followed by another one failed
    with a retriable error and slept at most the maximum delay, and the
    last round did not sleep. *)
Inductive retry_chain : list round → Prop :=
  | chain_nil : retry_chain []
  | chain_last r : slept r = None → retry_chain [r]
  | chain_retry r e d rest :
      outcome r = Some e → retriable e = true →
      slept r = Some d → (d <= MAX_RETRY_DELAY_SECONDS)%Q →
      rest ≠ [] → retry_chain rest →
      retry_chain (r :: rest).

(** The least and the greatest delay the thread can sleep after attempt
    number [a]: [2^(a+1)] and [3 * 2^a - 1] seconds. *)
Definition least_delay (a : nat) : Q := inject_Z (2 ^ Z.of_nat (S a)).
Definition greatest_delay (a : nat) : Q := inject_Z (3 * 2 ^ Z.of_nat a - 1).

(** The text the prompt asks the model to write for one line, up to the
    delimiter: ["LYRIC: L\nSENTENCE: S\n"]. *)
Definition record_text (L S : str) : str :=
  (LYRIC_PREFIX ++ py " " ++ L) ++ newline :: (SENTENCE_PREFIX ++ py " " ++ S).

Definition candidate_text (L S : str) : str := record_text L S ++ [newline].

(** The same with its delimiter and the line break after it. *)
Definition block (r : str * str) : str :=
  candidate_text (fst r) (snd r) ++ END_MARK ++ [newline].

(** A field the parser hands on as it is written: not empty, stripped, on
    one line. *)
Definition clean (s : str) : Prop :=
  s ≠ [] ∧ strip s = s ∧ newline ∉ s.

(** A record the prompt's format can carry: two clean fields, and no
    delimiter inside its text. *)
Definition well_formed (r : str * str) : Prop :=
  clean (fst r) ∧ clean (snd r)
  ∧ contains END_MARK (candidate_text (fst r) (snd r)) = false.

(** A field set by the line loop is stripped and on one line. *)
Definition tidy (o : option str) : Prop :=
  ∀ v, o = Some v → strip v = v ∧ newline ∉ v.

End LLM.

(** ** image_searcher.py *)

Module Searcher.

(** The arithmetic of the embedding vectors. *)
Class FloatOps (F : Type) := {
  fzero : F;
  feps : F;                  (* 1e-8 *)
  fadd : F → F → F;
  fmul : F → F → F;
  fdiv : F → F → F;
  fsqrt : F → F;
  flt : F → F → bool         (* the order [np.argsort] sorts by *)
}.

(** The order on scores is a strict weak order. *)
Class ScoreOrder (F : Type) `{FloatOps F} := {
  flt_asym : ∀ x y : F, flt x y = true → flt y x = false;
  flt_negtrans : ∀ x y z : F, flt x y = false → flt y z = false → flt x z = false
}.

(** The order [np.argsort] leaves equal scores in.  Its default kind is
    not stable: numpy promises no order among equal elements, and the one
    it gives depends on the version, the machine and the array.
    [tie_rank a i] ranks the index [i] among the equal scores of the array
    [a]: of two equal scores [np.argsort] returns the index of lower rank
    first, and the lower index when the ranks are equal too. *)
Class TieOrder (F : Type) := tie_rank : list F → nat → nat.

(** numpy's comparison of floats when sorting,
    [a < b || (b != b && a == a)]: NaN sorts last. *)
Definition float_lt (a b : float) : bool :=
  PrimFloat.ltb a b || (negb (PrimFloat.eqb b b) && PrimFloat.eqb a a).

(** The same comparison on the specification of binary64 values. *)
Definition spec_float_lt (a b : spec_float) : bool :=
  SFltb a b || (negb (SFeqb b b) && SFeqb a a).

(** Binary64 arithmetic. *)
#[export] Instance float64_ops : FloatOps float := {|
  fzero := 0%float;
  feps := 0x1.5798ee2308c3ap-27%float;   (* the binary64 nearest 1e-8 *)
  fadd := PrimFloat.add;
  fmul := PrimFloat.mul;
  fdiv := PrimFloat.div;
  fsqrt := PrimFloat.sqrt;
  flt := float_lt
|}.

(** What the loader finds at a path. *)
Inductive file (A : Type) :=
  | Missing
  | Unreadable
  | Holds (a : A).
Arguments Missing {A}.
Arguments Unreadable {A}.
Arguments Holds {A} a.

Inductive load_error := FileNotFoundError | LoadFailed.

Inductive log_line :=
  | LogWarning (msg : string)
  | LogError (msg : string).

Section Search.

Context {F : Type} `{FloatOps F}.

(** A two-dimensional array of shape [(length rows, ncols)]. *)
Record ndarray2 := mk_array {
  rows : list (list F);
  ncols : nat
}.

(** A sum of scores, added left to right (numpy leaves the order of the
    additions to its kernels). *)
Definition fsum (v : list F) : F := foldl fadd fzero v.

(** [np.linalg.norm] of one row. *)
Definition norm (v : list F) : F := fsqrt (fsum (map (fun x => fmul x x) v)).

Definition dot (u v : list F) : F :=
  fsum (map (fun p => fmul (fst p) (snd p)) (combine u v)).

(** [v / (norm + 1e-8)] *)
Definition normalize_row (v : list F) : list F :=
  map (fun x => fdiv x (fadd (norm v) feps)) v.

Record ImageSearcher := mk_searcher {
  image_embeddings : option ndarray2;
  image_paths : option (list str);
  normalized_image_embeddings : option ndarray2
}.

(** [_load_data]: the two attributes it sets, or the exception it raises,
    with the warnings and errors it logs. *)
Definition _load_data (embeddings_file : file ndarray2)
    (paths_file : file (list str))
  : (load_error + (ndarray2 * list str)) * list log_line :=
  match embeddings_file, paths_file with
  | Missing, _ => (inl FileNotFoundError, [])
  | _, Missing => (inl FileNotFoundError, [])
  | Unreadable, _ =>
      (inl LoadFailed, [LogError "Failed to load embeddings or paths"])
  | Holds _, Unreadable =>
      (inl LoadFailed, [LogError "Failed to load embeddings or paths"])
  | Holds embeddings, Holds paths =>
      (inr (embeddings, paths),
       if negb (length paths =? length (rows embeddings))
       then [LogWarning "Mismatch between number of embeddings and paths!"]
       else [])
  end.

(** [_normalize_embeddings] *)
Definition _normalize_embeddings (embeddings : ndarray2) : ndarray2 :=
  {| rows := map normalize_row (rows embeddings); ncols := ncols embeddings |}.

(** [__init__] *)
Definition __init__ (embeddings_file : file ndarray2)
    (paths_file : file (list str))
  : (load_error + ImageSearcher) * list log_line :=
  match _load_data embeddings_file paths_file with
  | (inl e, log) => (inl e, log)
  | (inr (embeddings, paths), log) =>
      (inr {| image_embeddings := Some embeddings;
              image_paths := Some paths;
              normalized_image_embeddings :=
                Some (_normalize_embeddings embeddings) |}, log)
  end.

(** Entry [y] goes before entry [x]: its score is lower, or the scores
    are equal and its rank is lower. *)
Definition goes_before (rank : nat → nat) (y x : nat * F) : bool :=
  flt (snd y) (snd x)
  || negb (flt (snd x) (snd y)) && (rank (fst y) <? rank (fst x)).

(** Insertion into a list sorted by score, and by [rank] among equal
    scores. *)
Fixpoint insert_by_score (rank : nat → nat) (x : nat * F)
    (l : list (nat * F)) : list (nat * F) :=
  match l with
  | [] => [x]
  | y :: l' =>
      if goes_before rank y x then y :: insert_by_score rank x l'
      else x :: y :: l'
  end.

Fixpoint sort_by_score (rank : nat → nat) (l : list (nat * F))
  : list (nat * F) :=
  match l with
  | [] => []
  | x :: l' => insert_by_score rank x (sort_by_score rank l')
  end.

Definition indexed (similarities : list F) : list (nat * F) :=
  combine (seq 0 (length similarities)) similarities.

Context {ties : TieOrder F}.

(** The entries of the array in the order of [np.argsort]. *)
Definition sorted_entries (similarities : list F) : list (nat * F) :=
  sort_by_score (tie_rank similarities) (indexed similarities).

(** [np.argsort]: the indices in ascending order of score, NaN last.  The
    order among equal scores is not [search]'s to choose and not numpy's
    to promise: it is the one [tie_rank] gives. *)
Definition argsort (similarities : list F) : list nat :=
  map fst (sorted_entries similarities).

(** The slice [l[start:]]. *)
Definition slice_from {A} (start : Z) (l : list A) : list A :=
  let n := Z.of_nat (length l) in
  let start := if (start <? 0)%Z then Z.max (start + n) 0 else Z.min start n in
  drop (Z.to_nat start) l.

(** [np.argsort(similarities)[-top_k:][::-1]] *)
Definition top_k_indices (similarities : list F) (top_k : Z) : list nat :=
  rev (slice_from (- top_k) (argsort similarities)).

(** The loop that builds [results]; an index outside [image_paths] is
    skipped with a warning. *)
Definition collect (paths : list str) (similarities : list F)
    (indices : list nat) : list (str * F) :=
  omap (fun i =>
          match paths !! i, similarities !! i with
          | Some path, Some score => Some (path, score)
          | _, _ => None
          end) indices.

(** [np.dot(normalized_text_embedding, normalized_image_embeddings.T)[0]];
    [None] when the shapes do not agree and numpy raises. *)
Definition similarities_of (text_embedding : list F) (images : ndarray2)
  : option (list F) :=
  if length text_embedding =? ncols images then
    let normalized_text_embedding := normalize_row text_embedding in
    Some (map (dot normalized_text_embedding) (rows images))
  else None.

(** [search]; [None] of the result is Python's [None]. *)
Definition search (s : ImageSearcher) (text_embedding : option (list F))
    (top_k : Z) : option (list (str * F)) :=
  match normalized_image_embeddings s, image_paths s with
  | Some images, Some paths =>
      match text_embedding with
      | None => None
      | Some text_embedding =>
          match similarities_of text_embedding images with
          | Some similarities =>
              Some (collect paths similarities
                      (top_k_indices similarities top_k))
          | None => None
          end
      end
  | _, _ => None
  end.

(** The indices [search] walks through, with their scores: the entries in
    the order of [np.argsort], the last [top_k] of them, best first. *)
Definition top_entries (similarities : list F) (top_k : Z) : list (nat * F) :=
  rev (slice_from (- top_k) (sorted_entries similarities)).

(** [np.argsort] returns index [i] before index [j] when their scores are
    equal. *)
Definition tie_before (rank : nat → nat) (i j : nat) : Prop :=
  rank i < rank j ∨ rank i = rank j ∧ i < j.

(** [a] may stand before [b] in the order of [np.argsort]: [b] does not
    score below [a], and two equal scores stand as [tie_before] has it. *)
Definition sorted_le (rank : nat → nat) (a b : nat * F) : Prop :=
  flt (snd b) (snd a) = false
  ∧ (flt (snd a) (snd b) = false → tie_before rank (fst a) (fst b)).

(** Descending scores: [x] does not score below [y]. *)
Definition not_below (x y : str * F) : Prop := flt (snd x) (snd y) = false.

(** The position of [i] in [l], the length of [l] when [i] is not there. *)
Fixpoint position (i : nat) (l : list nat) : nat :=
  match l with
  | [] => 0
  | j :: l' => if decide (i = j) then 0 else S (position i l')
  end.

(** [x] stands before [y] in the list [l]. *)
Definition precedes {A} (l : list A) (x y : A) : Prop :=
  ∃ p q, p < q ∧ l !! p = Some x ∧ l !! q = Some y.

(** Index [i] may stand before index [j] in a result: if their scores are
    equal, [np.argsort] has returned [j] before [i]. *)
Definition argsort_reversed (similarities : list F) (i j : nat) : Prop :=
  ∀ si sj, similarities !! i = Some si → similarities !! j = Some sj →
           flt si sj = false → flt sj si = false →
           tie_before (tie_rank similarities) j i.

End Search.

Arguments ndarray2 F : clear implicits.
Arguments ImageSearcher F : clear implicits.

End Searcher.

(** ** song_info.py: the title of the song *)

Module SongInfo.

(** What one [find_element] for the title does: it finds an element and
    reads its text, or raises. *)
Inductive lookup :=
  | Found (text : str)
  | StaleElementReference
  | NoSuchElement
  | OtherError.

(** The loop [while attempts < 3] of [get_song_title], with [remaining]
    rounds left; [find_element n] is what the [n]-th lookup does. *)
Fixpoint title_attempts (find_element : nat → lookup)
    (attempts remaining : nat) : option str :=
  match remaining with
  | 0 => None
  | S remaining' =>
      match find_element attempts with
      | Found text => Some (strip text)
      | StaleElementReference =>
          title_attempts find_element (S attempts) remaining'
      | NoSuchElement | OtherError => None
      end
  end.

(** [get_song_title]; without a driver there is no title. *)
Definition get_song_title (driver : option (nat → lookup)) : option str :=
  match driver with
  | None => None
  | Some find_element => title_attempts find_element 0 3
  end.

Record SongInfo := mk_song_info {
  current_song_title : option str;
  song_title_history : list str
}.

(** [__init__] *)
Definition __init__ : SongInfo :=
  {| current_song_title := None; song_title_history := [] |}.

(** [update_song_title], given what [get_song_title] returned. *)
Definition update_song_title (si : SongInfo) (new_title : option str)
  : SongInfo * option str :=
  match new_title with
  | None => (si, None)
  | Some title =>
      if falsy title || bool_decide (Some title = current_song_title si)
      then (si, None)
      else ({| current_song_title := Some title;
               song_title_history := song_title_history si ++ [title] |},
            Some title)
  end.

End SongInfo.

(** ** text_embedding_generator.py and main.py *)

Module Main.

Import Storage LLM Searcher.

Definition TOP_K_RESULTS : Z := 1.

(** [str.isspace]: at least one character, all of them spaces. *)
Definition isspace_str (s : str) : bool :=
  negb (falsy s) && forallb isspace s.

Inductive analysis_status :=
  | NoLyricsProvided
  | ClientNotReady
  | AnalysisStarted
  | ErrorStartingAnalysis.

(** [LLMAnalysis.analyze_lyrics_in_background]: the status it returns;
    the thread runs exactly when the status is [AnalysisStarted].
    [thread_starts] tells whether starting a thread succeeds. *)
Definition analyze_lyrics_in_background (client thread_starts : bool)
    (cleaned_lyrics : str) : analysis_status :=
  if falsy cleaned_lyrics || isspace_str cleaned_lyrics then NoLyricsProvided
  else if negb client then ClientNotReady
  else if thread_starts then AnalysisStarted
  else ErrorStartingAnalysis.

(** The state of the title monitor together with the store it shares with
    the analysis threads; [analyses] lists the lyrics of the analyses
    started so far. *)
Record monitor := mk_monitor {
  song_info : SongInfo.SongInfo;
  storage : SongAnalysisStorage;
  llm_client : bool;
  last_processed_title : option str;
  analyses : list str
}.

Definition start (client : bool) : monitor :=
  {| song_info := SongInfo.__init__;
     storage := Storage.__init__;
     llm_client := client;
     last_processed_title := None;
     analyses := [] |}.

(** One round of [monitor_song_title_and_trigger_analysis] once the
    components are there: the title lookup, and for a new title the reset
    of the store and the start of the analysis of [full_lyrics], the text
    [get_fullscreen_lyrics] returns. *)
Definition poll (m : monitor) (driver : option (nat → SongInfo.lookup))
    (full_lyrics : str) (thread_starts : bool) : monitor :=
  let '(si, current_title) :=
    SongInfo.update_song_title (song_info m) (SongInfo.get_song_title driver) in
  match current_title with
  | Some title =>
      if negb (falsy title)
         && negb (bool_decide (Some title = last_processed_title m))
      then
        {| song_info := si;
           storage := start_new_song (storage m) title;
           llm_client := llm_client m;
           last_processed_title := Some title;
           analyses :=
             if falsy full_lyrics then analyses m
             else match analyze_lyrics_in_background (llm_client m)
                          thread_starts full_lyrics with
                  | AnalysisStarted => analyses m ++ [full_lyrics]
                  | _ => analyses m
                  end |}
      else
        {| song_info := si; storage := storage m; llm_client := llm_client m;
           last_processed_title := last_processed_title m;
           analyses := analyses m |}
  | None =>
      {| song_info := si; storage := storage m; llm_client := llm_client m;
         last_processed_title := last_processed_title m;
         analyses := analyses m |}
  end.

(** What happens to the shared state: a round of the monitor, or a record
    handed to [storage.add_analysis_line] by an analysis thread. *)
Inductive event :=
  | Poll (driver : option (nat → SongInfo.lookup)) (full_lyrics : str)
         (thread_starts : bool)
  | Stored (d : analysis_data).

Definition step (m : monitor) (e : event) : monitor :=
  match e with
  | Poll driver full_lyrics thread_starts =>
      poll m driver full_lyrics thread_starts
  | Stored d =>
      {| song_info := song_info m;
         storage := add_analysis_line (storage m) d;
         llm_client := llm_client m;
         last_processed_title := last_processed_title m;
         analyses := analyses m |}
  end.

Definition run (m : monitor) (events : list event) : monitor :=
  foldl step m events.

(** The invariant of the monitor and the store. *)
Definition in_step (m : monitor) : Prop :=
  SongInfo.current_song_title (song_info m) = last_processed_title m
  ∧ current_song_title (storage m) = last_processed_title m
  ∧ last (SongInfo.song_title_history (song_info m)) = last_processed_title m
  ∧ reachable (storage m).

Section Lyric.

Context {F : Type} `{FloatOps F}.

(** What the CLIP model does with a text: the processor raises, so that
    [inputs] is never bound; or a later step raises; or there are
    features, of which the first row is the embedding. *)
Inductive clip_run :=
  | ProcessorRaises
  | FeaturesRaise
  | Features (embedding : list F).

(** How [generate_embedding] ends: it returns an embedding or [None], or
    it raises. *)
Inductive embedding_result :=
  | Embedding (embedding : list F)
  | NoEmbedding
  | UnboundLocalError.

(** [TextEmbeddingGenerator.generate_embedding].  The [except] clause
    returns [None]; the [finally] clause then runs [del inputs], which
    raises when the processor has not bound [inputs]. *)
Definition generate_embedding (clip : str → clip_run) (text : str)
  : embedding_result :=
  if falsy text then NoEmbedding
  else
    match clip text with
    | Features embedding => Embedding embedding
    | FeaturesRaise => NoEmbedding
    | ProcessorRaises => UnboundLocalError
    end.

(** [os.path.relpath(path)] raises [ValueError] on the empty path.  On
    another path it raises when the platform makes it: on Windows a path
    on another drive than the current directory, anywhere a current
    directory that is gone; [platform_raises] tells. *)
Definition relpath_raises (platform_raises : str → bool) (path : str) : bool :=
  falsy path || platform_raises path.

(** How [handle_new_lyric] ends: it returns, after the call of
    [display_top_image] in the case of [Display], or it raises the error
    of [generate_embedding] or the one of [os.path.relpath]. *)
Inductive outcome :=
  | NotReady
  | NoCurrentSong
  | AnalysisPending
  | EmbeddingFailed (visual_sentence : str)
  | NoMatch (visual_sentence : str)
  | Display (image_path : str) (score : F) (visual_sentence : str)
  | RaisesUnboundLocalError
  | RaisesFromRelpath (image_path : str).

Context {ties : TieOrder F}.

(** [handle_new_lyric], with the three globals it reads and the platform
    under [os.path.relpath], which is called on the path of the top match
    when it is logged, before [display_top_image]. *)
Definition handle_new_lyric (platform_raises : str → bool)
    (store : option SongAnalysisStorage)
    (text_embedder : option (str → clip_run))
    (searcher : option (ImageSearcher F)) (lyric_line : str) : outcome :=
  match store, text_embedder, searcher with
  | Some store, Some clip, Some searcher =>
      match get_current_song_title store with
      | None => NoCurrentSong
      | Some current_song_title =>
          if falsy current_song_title then NoCurrentSong
          else
            match find_analysis_by_lyric store current_song_title lyric_line with
            | None => AnalysisPending
            | Some visual_sentence =>
                if falsy visual_sentence then AnalysisPending
                else
                  match generate_embedding clip visual_sentence with
                  | UnboundLocalError => RaisesUnboundLocalError
                  | NoEmbedding => EmbeddingFailed visual_sentence
                  | Embedding text_embedding =>
                      match search searcher (Some text_embedding)
                              TOP_K_RESULTS with
                      | Some ((top_image_path, score) :: _) =>
                          if relpath_raises platform_raises top_image_path
                          then RaisesFromRelpath top_image_path
                          else Display top_image_path score visual_sentence
                      | _ => NoMatch visual_sentence
                      end
                  end
            end
      end
  | _, _, _ => NotReady
  end.

End Lyric.

Arguments clip_run F : clear implicits.
Arguments embedding_result F : clear implicits.
Arguments outcome F : clear implicits.

End Main.

(** ** Sample inputs *)

Module Samples.

Import Storage LLM Searcher.

(** ["LYRIC: a\nSENTENCE: b\n<<END>>LYRIC: c\nSENTENCE: d\n<<END>>"] *)
Definition two_records_text : str :=
  py "LYRIC: a" ++ [newline] ++ py "SENTENCE: b" ++ [newline] ++ py "<<END>>"
  ++ py "LYRIC: c" ++ [newline] ++ py "SENTENCE: d" ++ [newline] ++ py "<<END>>".

(** ["LYRIC: x\n<<END>>LYRIC: y\nSENTENCE: z\n<<END>>"] *)
Definition lyric_only_then_full_text : str :=
  py "LYRIC: x" ++ [newline] ++ py "<<END>>"
  ++ py "LYRIC: y" ++ [newline] ++ py "SENTENCE: z" ++ [newline] ++ py "<<END>>".

(** Two images, loaded and normalized by the constructor. *)
Definition two_images : ndarray2 float :=
  {| rows := [[1; 0]; [0; 1]]%float; ncols := 2 |}.

Definition two_paths : list str := [py "a.jpg"; py "b.jpg"].

(** Two images with the same embedding. *)
Definition twin_images : ndarray2 float :=
  {| rows := [[1; 0]; [1; 0]]%float; ncols := 2 |}.

Definition twin_searcher : ImageSearcher float :=
  {| image_embeddings := Some twin_images;
     image_paths := Some two_paths;
     normalized_image_embeddings := Some (_normalize_embeddings twin_images) |}.

(** A service that is unavailable, then out of quota, then answers with
    the two-record reply in one chunk. *)
Definition flaky_service (n : nat) : attempt_run :=
  match n with
  | 0 => {| delivered := []; raised := Some ServiceUnavailable |}
  | 1 => {| delivered := []; raised := Some ResourceExhausted |}
  | _ => {| delivered := [Some [two_records_text]]; raised := None |}
  end.

(** [np.argsort] returning equal scores in ascending index order, as a
    stable sort does. *)
Definition index_order : TieOrder float := λ _ _, 0.

(** [np.argsort] returning equal scores in descending index order. *)
Definition reverse_index_order : TieOrder float :=
  λ similarities i, length similarities - i.

Definition two_searcher : ImageSearcher float :=
  {| image_embeddings := Some two_images;
     image_paths := Some two_paths;
     normalized_image_embeddings := Some (_normalize_embeddings two_images) |}.

(** The first two records of the prompt's own example. *)
Definition prompt_records : list (str * str) :=
  [(py "I walk alone at night", py "lonely city street");
   (py "The moon follows me", py "moonlit city street")].

Definition prompt_reply : str := concat (map block prompt_records).



(** The store after song ["A"] has started and the record
    [{'lyric': "Hi!", 'sentence': "s"}] has come in. *)
Definition greeting_store : SongAnalysisStorage :=
  add_analysis_line (start_new_song Storage.__init__ (py "A"))
    (line (py "Hi!") (py "s")).

(** A page whose title element reads [title], found at once. *)
Definition page (title : str) : option (nat → SongInfo.lookup) :=
  Some (λ _, SongInfo.Found title).

(** Song ["A"] is detected and a record comes in; the next round sees the
    same title; then song ["B"] is detected. *)
Definition two_songs : list Main.event :=
  [Main.Poll (page (py "A")) (py "la la") true;
   Main.Stored (line (py "Hi!") (py "s"));
   Main.Poll (page (py " A ")) (py "la la") true;
   Main.Poll (page (py "B")) (py " ") true].

End Samples.

(** * Properties *)

(** ** Strings *)

Section StringFacts.

Import PyStr.

Lemma falsy_true (s : str) : falsy s = true ↔ s = [].
Proof. destruct s; simpl; split; congruence. Qed.

Lemma falsy_false (s : str) : falsy s = false ↔ s ≠ [].
Proof. destruct s; simpl; split; congruence. Qed.

Lemma startswith_inv (p s : str) :
  startswith p s = true → s = p ++ drop (length p) s.
Proof.
  revert s. induction p as [|a p IH]; intros [|b s]; simpl; try done.
  intros [Hab Hp]%andb_prop. apply Ascii.eqb_eq in Hab as ->.
  f_equal. by apply IH.
Qed.

Lemma startswith_length (p s : str) :
  startswith p s = true → length p ≤ length s.
Proof.
  intros Hp%startswith_inv. rewrite Hp, length_app. lia.
Qed.

(** Text appended after a string at least as long as [p] does not change
    whether the string starts with [p]. *)
Lemma startswith_app_long (p s c : str) :
  length p ≤ length s → startswith p (s ++ c) = startswith p s.
Proof.
  revert s. induction p as [|a p IH]; intros [|b s]; simpl; try done; try lia.
  intros Hlen. f_equal. apply IH. lia.
Qed.

Lemma endswith_inv (p s : str) :
  endswith p s = true → ∃ b, s = b ++ p.
Proof.
  intros Hp%startswith_inv. exists (rev (drop (length (rev p)) (rev s))).
  apply (f_equal (@rev ascii)) in Hp.
  by rewrite rev_involutive, rev_app_distr, rev_involutive in Hp.
Qed.

Lemma split_first_eq (sep s : str) :
  split_first sep s =
    if startswith sep s then Some ([], drop (length sep) s)
    else match s with
         | [] => None
         | c :: s' =>
             match split_first sep s' with
             | Some (before, after) => Some (c :: before, after)
             | None => None
             end
         end.
Proof. by destruct s. Qed.

(** [split_first] cuts the string at an occurrence of [sep]. *)
Lemma split_first_Some (sep s before after : str) :
  split_first sep s = Some (before, after) → s = before ++ sep ++ after.
Proof.
  revert before. induction s as [|c s IH]; intros before; rewrite split_first_eq.
  - destruct (startswith sep []) eqn:Hp; [|done].
    intros [= <- <-]. by apply startswith_inv in Hp.
  - destruct (startswith sep (c :: s)) eqn:Hp.
    + intros [= <- <-]. by apply startswith_inv in Hp.
    + destruct (split_first sep s) as [[b a]|] eqn:Hs; [|done].
      intros [= <- <-]. simpl. f_equal. by apply IH.
Qed.

(** The loop test [sep in s] and the split agree. *)
Lemma split_first_None (sep s : str) :
  split_first sep s = None ↔ contains sep s = false.
Proof.
  induction s as [|c s IH]; rewrite split_first_eq; simpl.
  - destruct (startswith sep []); simpl; split; congruence.
  - destruct (startswith sep (c :: s)); simpl; [split; congruence|].
    rewrite <- IH. destruct (split_first sep s) as [[b a]|]; split; congruence.
Qed.

(** The first occurrence of [sep] in [s] is still the first one after more
    text has arrived. *)
Lemma split_first_app (sep s c before after : str) :
  split_first sep s = Some (before, after) →
  split_first sep (s ++ c) = Some (before, after ++ c).
Proof.
  revert before. induction s as [|x s IH]; intros before.
  - rewrite split_first_eq.
    destruct (startswith sep []) eqn:Hp; [|done].
    intros [= <- <-]. destruct sep; [|done]. by destruct c.
  - rewrite split_first_eq. destruct (startswith sep (x :: s)) eqn:Hp.
    + intros [= <- <-]. pose proof (startswith_length _ _ Hp) as Hlen.
      rewrite split_first_eq, startswith_app_long, Hp by done.
      by rewrite drop_app_le.
    + destruct (split_first sep s) as [[b a]|] eqn:Hs; [|done].
      intros [= <- <-].
      assert (length sep ≤ length (x :: s)) as Hlen.
      { apply split_first_Some in Hs. rewrite Hs; simpl.
        rewrite !length_app. lia. }
      change ((x :: s) ++ c) with (x :: (s ++ c)).
      rewrite split_first_eq.
      change (x :: (s ++ c)) with ((x :: s) ++ c) at 1.
      rewrite startswith_app_long, Hp by done.
      by rewrite (IH b eq_refl).
Qed.

Lemma lstrip_idemp (s : str) : lstrip (lstrip s) = lstrip s.
Proof.
  induction s as [|c s IH]; simpl; [done|].
  destruct (isspace c) eqn:Hc; [done|]. simpl. by rewrite Hc.
Qed.

Lemma lstrip_snoc (s : str) (c : ascii) :
  isspace c = false → lstrip (s ++ [c]) = lstrip s ++ [c].
Proof.
  intros Hc. induction s as [|x s IH]; simpl.
  - by rewrite Hc.
  - by destruct (isspace x).
Qed.

Lemma rstrip_cons (c : ascii) (s : str) :
  isspace c = false → rstrip (c :: s) = c :: rstrip s.
Proof.
  intros Hc. unfold rstrip. simpl.
  by rewrite lstrip_snoc, rev_app_distr.
Qed.

Lemma rstrip_idemp (s : str) : rstrip (rstrip s) = rstrip s.
Proof. unfold rstrip. by rewrite rev_involutive, lstrip_idemp. Qed.

(** Stripping twice is stripping once. *)
Lemma strip_idemp (s : str) : strip (strip s) = strip s.
Proof.
  unfold strip.
  assert (lstrip (rstrip (lstrip s)) = rstrip (lstrip s)) as ->;
    [|apply rstrip_idemp].
  pose proof (lstrip_idemp s) as Hl.
  destruct (lstrip s) as [|c t] eqn:Hs; [done|].
  simpl in Hl. destruct (isspace c) eqn:Hc.
  - exfalso. clear Hs.
    assert (length (lstrip t) ≤ length t) as Hlen.
    { clear. induction t as [|x t IH]; simpl; [done|].
      destruct (isspace x); simpl; lia. }
    rewrite Hl in Hlen. simpl in Hlen. lia.
  - rewrite rstrip_cons by done. simpl. by rewrite Hc.
Qed.

End StringFacts.

(** ** The analysis store *)

Section StorageFacts.

Import Storage.

Implicit Types (st : SongAnalysisStorage) (d : analysis_data).

(** [add_analysis_line] never moves the current-song pointer. *)
Lemma add_keeps_current st d :
  current_song_title (add_analysis_line st d) = current_song_title st.
Proof.
  unfold add_analysis_line.
  destruct (absent_or_empty (lyric d) || absent_or_empty (sentence d)); [done|].
  destruct (lyric d) as [l|], (sentence d) as [s|]; try done.
  destruct (falsy (_normalize_lyric l)); [done|].
  by destruct (current_song_title st) eqn:E.
Qed.

(** The current song of a reachable store is never the empty title. *)
Lemma reachable_current_nonempty st t :
  reachable st → current_song_title st = Some t → t ≠ [].
Proof.
  induction 1 as [|st u Hst IH|st d Hst IH] in t |- *.
  - discriminate.
  - unfold start_new_song. destruct (falsy u) eqn:Hu; simpl.
    + apply IH.
    + intros [= <-]. by apply falsy_false.
  - rewrite add_keeps_current. apply IH.
Qed.

(** What [add_analysis_line] does when nothing stops it. *)
Lemma add_line_effective st t L S :
  current_song_title st = Some t → L ≠ [] → S ≠ [] →
  _normalize_lyric L ≠ [] →
  add_analysis_line st (line L S) =
    {| current_song_title := Some t;
       song_data := <[t := <[_normalize_lyric L := S]>
                              (default ∅ (song_data st !! t))]> (song_data st) |}.
Proof.
  intros Hcur HL HS HN. unfold add_analysis_line, line; simpl.
  apply falsy_false in HL, HS, HN. by rewrite HL, HS, HN, Hcur.
Qed.

(** A record whose lyric normalizes to nothing is ignored. *)
Lemma add_line_ignored st L S :
  _normalize_lyric L = [] → add_analysis_line st (line L S) = st.
Proof.
  intros HN. unfold add_analysis_line, line; simpl.
  destruct (falsy L || falsy S); [done|]. by rewrite HN.
Qed.

(** A lookup only reads the table of the song asked for. *)
Lemma find_same_table st st' t L :
  song_data st !! t = song_data st' !! t →
  find_analysis_by_lyric st t L = find_analysis_by_lyric st' t L.
Proof. intros E. unfold find_analysis_by_lyric. by rewrite E. Qed.

(** A lookup depends on the line only through its normal form. *)
Lemma find_by_normal_form st t L1 L2 :
  _normalize_lyric L1 = _normalize_lyric L2 →
  find_analysis_by_lyric st t L1 = find_analysis_by_lyric st t L2.
Proof.
  intros E. unfold find_analysis_by_lyric.
  destruct (falsy t); simpl; [done|].
  destruct (falsy L1) eqn:H1, (falsy L2) eqn:H2; simpl.
  - done.
  - apply falsy_true in H1; subst L1.
    rewrite <- E. by cbn.
  - apply falsy_true in H2; subst L2.
    rewrite E. by cbn.
  - by rewrite E.
Qed.

(** [add_analysis_line] depends on the lyric only through its normal form. *)
Lemma add_by_normal_form st L1 L2 S :
  _normalize_lyric L1 = _normalize_lyric L2 →
  add_analysis_line st (line L1 S) = add_analysis_line st (line L2 S).
Proof.
  intros E.
  destruct (decide (_normalize_lyric L1 = [])) as [H1|H1].
  { rewrite !add_line_ignored; congruence. }
  assert (H2 : _normalize_lyric L2 ≠ []) by congruence.
  assert (HL1 : L1 ≠ []) by (intros ->; by apply H1).
  assert (HL2 : L2 ≠ []) by (intros ->; by apply H2).
  unfold add_analysis_line, line; simpl.
  apply falsy_false in HL1, HL2. rewrite HL1, HL2; simpl.
  by rewrite E.
Qed.

(** C10: [start_new_song] with a non-empty title [T] sets the current song
    to [T] and gives [T] an empty table; the table of every other song id
    [U] is the one the store had before, present or not. *)
Theorem start_new_song_frame st (T U : str) :
  T ≠ [] → U ≠ T →
  song_data (start_new_song st T) !! U = song_data st !! U
  ∧ current_song_title (start_new_song st T) = Some T
  ∧ song_data (start_new_song st T) !! T = Some ∅.
Proof.
  intros HT HU. unfold start_new_song.
  apply falsy_false in HT. rewrite HT; simpl.
  split_and!; [by rewrite lookup_insert_ne | done | by rewrite lookup_insert_eq].
Qed.

Lemma start_new_song_frame_witness :
  py "B" ≠ [] ∧ py "A" ≠ py "B"
  ∧ song_data (start_new_song
                 (add_analysis_line (start_new_song Storage.__init__ (py "A"))
                    (line (py "hi") (py "s"))) (py "B")) !! py "A"
    = song_data (add_analysis_line (start_new_song Storage.__init__ (py "A"))
                   (line (py "hi") (py "s"))) !! py "A".
Proof.
  split; [discriminate|]. split; [discriminate|].
  apply (start_new_song_frame _ (py "B") (py "A")); discriminate.
Defined.

(** C1, as the code has it: starting song [B] leaves the lookups of another
    song [A] exactly as they were, entries included; it is the new song [B]
    whose lookups all return absent. *)
Theorem start_other_song_keeps_lookup st (A B : str)
    (lines : list analysis_data) (L : str) :
  A ≠ B →
  let st1 := add_lines (start_new_song st A) lines in
  find_analysis_by_lyric (start_new_song st1 B) A L
    = find_analysis_by_lyric st1 A L
  ∧ find_analysis_by_lyric (start_new_song st1 B) B L = None.
Proof.
  intros HAB st1. split.
  - apply find_same_table. unfold start_new_song.
    destruct (falsy B); simpl; [done|]. by rewrite lookup_insert_ne.
  - unfold find_analysis_by_lyric, start_new_song.
    destruct (falsy B) eqn:HB; simpl; [done|].
    destruct (falsy L); simpl; [done|].
    destruct (falsy (_normalize_lyric L)); [done|].
    rewrite lookup_insert_eq. by destruct (decide _).
Qed.

Lemma start_other_song_keeps_lookup_witness :
  py "A" ≠ py "B"
  ∧ find_analysis_by_lyric
      (start_new_song
         (add_lines (start_new_song Storage.__init__ (py "A")) [line (py "hi") (py "s")])
         (py "B")) (py "A") (py "hi")
    = find_analysis_by_lyric
        (add_lines (start_new_song Storage.__init__ (py "A")) [line (py "hi") (py "s")])
        (py "A") (py "hi").
Proof.
  split; [discriminate|].
  apply (start_other_song_keeps_lookup Storage.__init__ (py "A") (py "B")
           [line (py "hi") (py "s")] (py "hi")).
  discriminate.
Defined.

(** C1 fails as stated: after [start_new_song "A"], one line stored and
    [start_new_song "B"], the lookup of that line under ["A"] still
    returns its sentence. *)
Lemma old_song_lookup_not_absent :
  py "A" ≠ py "B"
  ∧ find_analysis_by_lyric
      (start_new_song
         (add_lines (start_new_song Storage.__init__ (py "A")) [line (py "hi") (py "s")])
         (py "B")) (py "A") (py "hi")
    ≠ None.
Proof. split; [discriminate|]. vm_compute. discriminate. Qed.

(** C2, as the code has it: in a reachable store with current song [t], a
    record with non-empty lyric [L] and sentence [S] whose lyric does not
    normalize to the empty string is found again under [t] by [L]. *)
Theorem add_then_find st (t L S : str) :
  reachable st → current_song_title st = Some t →
  L ≠ [] → S ≠ [] → _normalize_lyric L ≠ [] →
  find_analysis_by_lyric (add_analysis_line st (line L S)) t L = Some S.
Proof.
  intros Hr Hcur HL HS HN.
  pose proof (reachable_current_nonempty st t Hr Hcur) as Ht.
  rewrite (add_line_effective st t L S) by done.
  unfold find_analysis_by_lyric; simpl.
  apply falsy_false in Ht, HL, HN. rewrite Ht, HL, HN; simpl.
  rewrite lookup_insert_eq.
  destruct (decide _) as [E|_].
  - by apply insert_non_empty in E.
  - by rewrite lookup_insert_eq.
Qed.

Lemma add_then_find_witness :
  find_analysis_by_lyric
    (add_analysis_line (start_new_song Storage.__init__ (py "song"))
       (line (py "Hello, World!") (py "waving hand")))
    (py "song") (py "Hello, World!")
  = Some (py "waving hand").
Proof.
  apply (add_then_find (start_new_song Storage.__init__ (py "song")) (py "song")).
  - apply reach_start, reach_init.
  - reflexivity.
  - discriminate.
  - discriminate.
  - vm_compute. discriminate.
Defined.

(** C2 fails as stated: with song ["song"] current, the non-empty lyric
    ["?!"] is all punctuation, the record is ignored and the lookup under
    the current song does not return the sentence. *)
Lemma punctuation_lyric_not_found :
  let st := start_new_song Storage.__init__ (py "song") in
  current_song_title st = Some (py "song")
  ∧ py "?!" ≠ [] ∧ py "x" ≠ []
  ∧ find_analysis_by_lyric (add_analysis_line st (line (py "?!") (py "x")))
      (py "song") (py "?!")
    ≠ Some (py "x").
Proof.
  split_and!; [reflexivity | discriminate | discriminate |].
  vm_compute. discriminate.
Qed.

(** C3: when two stored variants [L1], [L2] have the same normal form and
    two queried variants [Q1], [Q2] have the same normal form, storing
    either under the current song and querying either gives the same
    answer, for every store, song and sentence. *)
Theorem lookup_modulo_normalization st (t L1 L2 Q1 Q2 S : str) :
  _normalize_lyric L1 = _normalize_lyric L2 →
  _normalize_lyric Q1 = _normalize_lyric Q2 →
  find_analysis_by_lyric (add_analysis_line st (line L1 S)) t Q1
  = find_analysis_by_lyric (add_analysis_line st (line L2 S)) t Q2.
Proof.
  intros HL HQ.
  rewrite (add_by_normal_form st L1 L2 S HL).
  by apply find_by_normal_form.
Qed.

Lemma lookup_modulo_normalization_witness :
  find_analysis_by_lyric
    (add_analysis_line (start_new_song Storage.__init__ (py "song"))
       (line (py "Hello,   World!") (py "waving hand")))
    (py "song") (py "  hello world")
  = find_analysis_by_lyric
      (add_analysis_line (start_new_song Storage.__init__ (py "song"))
         (line (py "HELLO WORLD?") (py "waving hand")))
      (py "song") (py "Hello; World")
  ∧ find_analysis_by_lyric
      (add_analysis_line (start_new_song Storage.__init__ (py "song"))
         (line (py "Hello,   World!") (py "waving hand")))
      (py "song") (py "  hello world")
    = Some (py "waving hand").
Proof.
  split.
  - apply (lookup_modulo_normalization (start_new_song Storage.__init__ (py "song"))
             (py "song") (py "Hello,   World!") (py "HELLO WORLD?")
             (py "  hello world") (py "Hello; World") (py "waving hand"));
      vm_compute; reflexivity.
  - vm_compute. reflexivity.
Defined.

End StorageFacts.

(** ** The streaming parser *)

Section ParserFacts.

Import Storage LLM Samples.

Lemma end_mark_length : length END_MARK = 7.
Proof. reflexivity. Qed.

(** A round of the loop leaves a shorter buffer. *)
Lemma split_first_end_shorter (buffer before after : str) :
  split_first END_MARK buffer = Some (before, after) →
  length after < length buffer.
Proof.
  intros ->%split_first_Some. rewrite !length_app, end_mark_length. lia.
Qed.

Lemma drain_fuel_stable (n m : nat) (buffer : str) :
  length buffer ≤ n → length buffer ≤ m →
  drain_fuel n buffer = drain_fuel m buffer.
Proof.
  revert m buffer. induction n as [|n IH]; intros [|m] buffer Hn Hm; simpl.
  - done.
  - destruct buffer; [done | simpl in Hn; lia].
  - destruct buffer; [done | simpl in Hm; lia].
  - destruct (split_first END_MARK buffer) as [[before after]|] eqn:Hs; [|done].
    apply split_first_end_shorter in Hs.
    rewrite (IH m after) by lia. done.
Qed.

(** The loop, one round unfolded: [length buffer] rounds are never used up. *)
Lemma drain_eq (buffer : str) :
  drain buffer =
    match split_first END_MARK buffer with
    | None => ([], buffer)
    | Some (before, after) =>
        let '(out, rest) := drain after in
        (emit_section (strip before) ++ out, rest)
    end.
Proof.
  unfold drain. destruct buffer as [|c buffer]; [done|].
  remember (c :: buffer) as b eqn:Hb.
  assert (length b = S (length buffer)) as -> by (by subst).
  simpl.
  destruct (split_first END_MARK b) as [[before after]|] eqn:Hs; [|done].
  apply split_first_end_shorter in Hs.
  rewrite (drain_fuel_stable (length buffer) (length after) after);
    [done | subst; simpl in *; lia | done].
Qed.

(** Induction on the length of the buffer. *)
Lemma length_ind {A} (P : list A → Prop) :
  (∀ l, (∀ l', length l' < length l → P l') → P l) → ∀ l, P l.
Proof.
  intros Hstep.
  assert (∀ n l, length l < n → P l) as Hn.
  { induction n as [|n IH]; intros l Hl; [lia|].
    apply Hstep. intros l' Hl'. apply IH. lia. }
  intros l. apply (Hn (S (length l))). lia.
Qed.

(** The loop stops only when no delimiter is left in the buffer. *)
Lemma drain_no_mark_left (buffer : str) :
  contains END_MARK (snd (drain buffer)) = false.
Proof.
  induction buffer as [buffer IH] using length_ind.
  rewrite drain_eq.
  destruct (split_first END_MARK buffer) as [[before after]|] eqn:Hs.
  - pose proof (split_first_end_shorter _ _ _ Hs) as Hlt.
    specialize (IH after Hlt).
    by destruct (drain after) as [out rest].
  - simpl. by apply split_first_None.
Qed.

(** A buffer without delimiter passes the loop untouched. *)
Lemma drain_no_mark (buffer : str) :
  contains END_MARK buffer = false → drain buffer = ([], buffer).
Proof. intros Hc%split_first_None. by rewrite drain_eq, Hc. Qed.

(** Draining a buffer that grows: the loop run on [buffer ++ more] hands on
    what it hands on for [buffer], then what the leftover followed by
    [more] gives. *)
Lemma drain_app (buffer more : str) :
  drain (buffer ++ more) =
    let '(out1, rest1) := drain buffer in
    let '(out2, rest2) := drain (rest1 ++ more) in
    (out1 ++ out2, rest2).
Proof.
  induction buffer as [buffer IH] using length_ind.
  rewrite (drain_eq buffer).
  destruct (split_first END_MARK buffer) as [[before after]|] eqn:Hs.
  - pose proof (split_first_end_shorter _ _ _ Hs) as Hlt.
    rewrite drain_eq, (split_first_app _ _ more _ _ Hs).
    rewrite (IH after Hlt).
    destruct (drain after) as [out1 rest1].
    destruct (drain (rest1 ++ more)) as [out2 rest2].
    by rewrite app_assoc.
  - by destruct (drain (buffer ++ more)).
Qed.

(** The chunk loop, from any state whose buffer holds no delimiter. *)
Lemma foldl_feed (chunk_stream : list chunk) (out : list analysis_data)
    (buffer : str) :
  contains END_MARK buffer = false →
  foldl feed (out, buffer) chunk_stream =
    let '(new, rest) := drain (buffer ++ stream_text chunk_stream) in
    (out ++ new, rest).
Proof.
  revert out buffer.
  induction chunk_stream as [|c cs IH]; intros out buffer Hb; simpl.
  - unfold stream_text; simpl. rewrite app_nil_r, drain_no_mark by done.
    by rewrite app_nil_r.
  - unfold stream_text; simpl. fold (stream_text cs).
    rewrite app_assoc, (drain_app (buffer ++ chunk_text c)).
    pose proof (drain_no_mark_left (buffer ++ chunk_text c)) as Hrest.
    destruct (drain (buffer ++ chunk_text c)) as [new rest]; simpl in Hrest.
    rewrite (IH _ _ Hrest).
    destruct (drain (rest ++ stream_text cs)) as [new2 rest2].
    by rewrite app_assoc.
Qed.

Lemma process_stream_text (chunk_stream : list chunk) :
  _process_stream chunk_stream = process_text (stream_text chunk_stream).
Proof.
  unfold _process_stream, feed_all, process_text.
  rewrite foldl_feed by done. simpl.
  by destruct (drain (stream_text chunk_stream)).
Qed.

(** C6: two streams that carry the same text, cut into chunks in any two
    ways, hand the same records to the callback in the same order; and a
    stream carrying the two-record sample text, however it is cut, hands
    on the records {a,b} then {c,d}. *)
Theorem process_stream_split_independent (s1 s2 : list chunk) :
  stream_text s1 = stream_text s2 →
  _process_stream s1 = _process_stream s2
  ∧ (stream_text s1 = two_records_text →
     _process_stream s1 = [line (py "a") (py "b"); line (py "c") (py "d")]).
Proof.
  intros Htext. rewrite !process_stream_text. split.
  - by rewrite Htext.
  - intros ->. vm_compute. reflexivity.
Qed.

Lemma process_stream_split_independent_witness :
  _process_stream
    [Some [take 20 two_records_text]; None; Some [drop 20 two_records_text]]
  = _process_stream [Some [two_records_text]]
  ∧ _process_stream
      [Some [take 20 two_records_text]; None; Some [drop 20 two_records_text]]
    = [line (py "a") (py "b"); line (py "c") (py "d")].
Proof.
  pose proof (process_stream_split_independent
    [Some [take 20 two_records_text]; None; Some [drop 20 two_records_text]]
    [Some [two_records_text]] eq_refl) as [H1 H2].
  split; [exact H1 | exact (H2 eq_refl)].
Defined.

(** The parser, one candidate unfolded: the first candidate's record, if
    it parses, then whatever the text after its delimiter gives. *)
Lemma process_text_first (text candidate rest : str) :
  split_first END_MARK text = Some (candidate, rest) →
  process_text text = emit_section (strip candidate) ++ process_text rest.
Proof.
  intros Hs. unfold process_text. rewrite (drain_eq text), Hs.
  destruct (drain rest) as [out buffer]. by rewrite app_assoc.
Qed.

(** The delimiter does not overlap itself: behind a candidate that does
    not hold it, its first occurrence is the one that follows the
    candidate. *)
Lemma split_first_candidate (candidate rest : str) :
  contains END_MARK candidate = false →
  split_first END_MARK (candidate ++ END_MARK ++ rest) = Some (candidate, rest).
Proof.
  induction candidate as [|c candidate IH]; [done|].
  intros Hc. simpl in Hc. apply orb_false_elim in Hc as [Hstart Hc].
  specialize (IH Hc).
  change ((c :: candidate) ++ END_MARK ++ rest)
    with (c :: (candidate ++ END_MARK ++ rest)).
  rewrite split_first_eq, IH.
  assert (startswith END_MARK (c :: (candidate ++ END_MARK ++ rest)) = false)
    as ->; [|done].
  destruct (decide (length END_MARK ≤ length (c :: candidate))) as [Hlen|Hlen].
  { change (c :: (candidate ++ END_MARK ++ rest))
      with ((c :: candidate) ++ END_MARK ++ rest).
    by rewrite startswith_app_long. }
  clear IH Hc Hstart. rewrite end_mark_length in Hlen. simpl in Hlen.
  destruct (startswith END_MARK (c :: candidate ++ END_MARK ++ rest)) eqn:E;
    [exfalso|done].
  apply startswith_inv in E. rewrite end_mark_length in E.
  do 6 (try (destruct candidate as [|? candidate]; simpl in Hlen)); try lia;
    clear Hlen; by simplify_eq/=.
Qed.

Lemma process_text_app (before more : str) :
  snd (drain before) = [] →
  process_text (before ++ more) = fst (drain before) ++ process_text more.
Proof.
  intros Hrest. unfold process_text. rewrite drain_app.
  destruct (drain before) as [out1 rest1]. simpl in *. subst rest1. simpl.
  destruct (drain more) as [out2 rest2]. by rewrite app_assoc.
Qed.

(** The fields of the result after the line loop, when no line gives a
    non-empty value for [prefix]. *)
Lemma parse_lines_no_lyric (lines : list str) (result : analysis_data) :
  existsb (fun l => negb (absent_or_empty (field_value LYRIC_PREFIX l))) lines
    = false →
  absent_or_empty (lyric result) = true →
  absent_or_empty (lyric (foldl parse_line result lines)) = true.
Proof.
  revert result. induction lines as [|l lines IH]; intros result; simpl; [done|].
  intros [Hl Hrest]%orb_false_elim Hres. apply IH; [done|].
  unfold parse_line. unfold field_value in Hl.
  destruct (startswith LYRIC_PREFIX (strip l)),
    (startswith SENTENCE_PREFIX (strip l)); cbn [lyric]; try exact Hres.
  - apply negb_false_iff in Hl. exact Hl.
  - apply negb_false_iff in Hl. exact Hl.
Qed.

Lemma parse_lines_no_sentence (lines : list str) (result : analysis_data) :
  existsb (fun l => negb (absent_or_empty (field_value SENTENCE_PREFIX l))) lines
    = false →
  absent_or_empty (sentence result) = true →
  absent_or_empty (sentence (foldl parse_line result lines)) = true.
Proof.
  revert result. induction lines as [|l lines IH]; intros result; simpl; [done|].
  intros [Hl Hrest]%orb_false_elim Hres. apply IH; [done|].
  unfold parse_line. unfold field_value in Hl.
  destruct (startswith LYRIC_PREFIX (strip l)),
    (startswith SENTENCE_PREFIX (strip l)); cbn [sentence]; try exact Hres.
  apply negb_false_iff in Hl. exact Hl.
Qed.

(** A section without a non-empty LYRIC line, or without a non-empty
    SENTENCE line, does not parse. *)
Lemma parse_section_missing_field (section : str) :
  has_field LYRIC_PREFIX section = false
  ∨ has_field SENTENCE_PREFIX section = false →
  parse_section section = None.
Proof.
  intros Hmiss. unfold parse_section.
  destruct (falsy (strip section)); [done|].
  destruct Hmiss as [Hl|Hs].
  - by rewrite (parse_lines_no_lyric _ (mk_analysis None None) Hl eq_refl).
  - rewrite (parse_lines_no_sentence _ (mk_analysis None None) Hs eq_refl).
    by rewrite andb_false_r.
Qed.

Lemma has_field_strip (prefix section : str) :
  has_field prefix (strip section) = has_field prefix section.
Proof. unfold has_field. by rewrite strip_idemp. Qed.

(** Such a candidate hands nothing to the callback. *)
Lemma emit_section_missing_field (candidate : str) :
  has_field LYRIC_PREFIX candidate = false
  ∨ has_field SENTENCE_PREFIX candidate = false →
  emit_section (strip candidate) = [].
Proof.
  intros Hmiss. unfold emit_section.
  destruct (falsy (strip candidate)); [done|].
  rewrite parse_section_missing_field; [done|].
  by rewrite !has_field_strip.
Qed.

(** Text that ends with a delimiter leaves nothing in the buffer. *)
Lemma drain_closed (before : str) :
  falsy before || endswith END_MARK before = true →
  snd (drain before) = [].
Proof.
  intros [->%falsy_true|(b & ->)%endswith_inv]%orb_prop; [done|].
  rewrite drain_app.
  pose proof (drain_no_mark_left b) as Hrest.
  destruct (drain b) as [out1 rest1]. simpl in Hrest.
  assert (rest1 ++ END_MARK = rest1 ++ END_MARK ++ []) as ->
    by (by rewrite app_nil_r).
  rewrite drain_eq, (split_first_candidate rest1 [] Hrest).
  by rewrite drain_eq.
Qed.

(** C7: a candidate anywhere in a reply (the text between two delimiters,
    or before the first one) that has no non-empty LYRIC line or no
    non-empty SENTENCE line hands nothing on, and the parser hands on
    exactly the records it hands on for the reply without that candidate
    and its delimiter, those of the later candidates included; and a stream
    carrying the sample text, however it is cut, hands on the single
    record {y,z}. *)
Theorem malformed_candidate_dropped (s : list chunk)
    (before candidate rest : str) :
  stream_text s = before ++ candidate ++ END_MARK ++ rest →
  falsy before || endswith END_MARK before = true →
  contains END_MARK candidate = false →
  has_field LYRIC_PREFIX candidate = false
  ∨ has_field SENTENCE_PREFIX candidate = false →
  _process_stream s = _process_stream [Some [before ++ rest]]
  ∧ (stream_text s = lyric_only_then_full_text →
     _process_stream s = [line (py "y") (py "z")]).
Proof.
  intros Htext Hclosed%drain_closed Hcand%(split_first_candidate _ rest) Hmiss.
  rewrite !process_stream_text. split.
  - rewrite Htext, process_text_app by done.
    rewrite (process_text_first _ _ _ Hcand).
    rewrite (emit_section_missing_field _ Hmiss).
    unfold stream_text; simpl. rewrite !app_nil_r.
    by rewrite process_text_app.
  - intros ->. vm_compute. reflexivity.
Qed.

Lemma malformed_candidate_dropped_witness :
  _process_stream
    [Some [take 11 lyric_only_then_full_text];
     Some [drop 11 lyric_only_then_full_text]]
  = [line (py "y") (py "z")]
  ∧ _process_stream
      [Some [take 11 lyric_only_then_full_text];
       Some [drop 11 lyric_only_then_full_text]]
    = _process_stream
        [Some [py "LYRIC: y" ++ [newline] ++ py "SENTENCE: z" ++ [newline]
               ++ py "<<END>>"]].
Proof.
  pose proof (malformed_candidate_dropped
    [Some [take 11 lyric_only_then_full_text];
     Some [drop 11 lyric_only_then_full_text]]
    []
    (py "LYRIC: x" ++ [newline])
    (py "LYRIC: y" ++ [newline] ++ py "SENTENCE: z" ++ [newline]
     ++ py "<<END>>")
    eq_refl eq_refl eq_refl (or_intror eq_refl)) as [H1 H2].
  split; [exact (H2 eq_refl) | exact H1].
Defined.

End ParserFacts.

(** ** The retry loop *)

Section RetryFacts.

Import Storage LLM Samples.

Lemma initial_delay_bounded :
  (INITIAL_RETRY_DELAY_SECONDS <= MAX_RETRY_DELAY_SECONDS)%Q.
Proof. unfold Qle; simpl; lia. Qed.

Lemma next_delay_bounded (d : Q) (b : Byte.byte) :
  (next_delay d b <= MAX_RETRY_DELAY_SECONDS)%Q.
Proof. apply Q.le_min_r. Qed.

Lemma retry_loop_length service urandom remaining attempt d :
  length (retry_loop service urandom remaining attempt d) ≤ remaining.
Proof.
  revert attempt d. induction remaining as [|n IH]; intros attempt d; simpl.
  - done.
  - destruct (raised (service attempt)) as [e|]; simpl; [|lia].
    destruct (retriable e); simpl; [|lia].
    destruct (attempt <? MAX_RETRIES); simpl; specialize (IH (S attempt)).
    + specialize (IH (next_delay d (urandom attempt))). lia.
    + specialize (IH d). lia.
Qed.

(** The loop counter and the rounds left stay in step, so a retriable
    failure in the last round finds no round left. *)
Lemma retry_loop_chain service urandom remaining attempt d :
  remaining + attempt = MAX_RETRIES + 1 →
  (d <= MAX_RETRY_DELAY_SECONDS)%Q →
  retry_chain (retry_loop service urandom remaining attempt d).
Proof.
  revert attempt d. induction remaining as [|n IH]; intros attempt d Hn Hd; simpl.
  - constructor.
  - destruct (raised (service attempt)) as [e|] eqn:He; [|by constructor].
    destruct (retriable e) eqn:Hr; [|by constructor].
    destruct (attempt <? MAX_RETRIES) eqn:Hlt.
    + apply Nat.ltb_lt in Hlt.
      eapply chain_retry; [done | exact Hr | done | exact Hd | |].
      * destruct n as [|n]; [lia|]. simpl.
        destruct (raised (service (S attempt))) as [e'|]; [|done].
        destruct (retriable e'); [|done].
        by destruct (S attempt <? MAX_RETRIES).
      * apply IH; [lia | apply next_delay_bounded].
    + apply Nat.ltb_ge in Hlt.
      assert (n = 0) as -> by lia. simpl. by constructor.
Qed.


Lemma retry_chain_last (rounds : list round) (i : nat) (r : round) :
  retry_chain rounds → rounds !! i = Some r → S i = length rounds →
  slept r = None.
Proof.
  intros Hc. revert i. induction Hc as [|r0 Hs|r0 e d rest Ho Hr Hs Hd Hne Hc IH];
    intros i Hi Hlen; simpl in *.
  - lia.
  - destruct i as [|i]; [|lia]. simpl in Hi. by injection Hi as <-.
  - destruct i as [|i]; simpl in Hi.
    + destruct rest; [done | simpl in Hlen; lia].
    + apply (IH i); [done | lia].
Qed.



End RetryFacts.

(** ** The order on binary64 scores *)

Section FloatOrder.

Import Searcher.

Ltac compare_cases :=
  repeat match goal with
         | |- context [Pos.compare_cont Eq ?a ?b] =>
             change (Pos.compare_cont Eq a b) with (Pos.compare a b)
         | |- context [(?a ?= ?b)%Z] => destruct (Z.compare_spec a b); subst
         | |- context [(?a ?= ?b)%positive] =>
             destruct (Pos.compare_spec a b); subst
         end.

Lemma spec_float_lt_asym (a b : spec_float) :
  spec_float_lt a b = true → spec_float_lt b a = false.
Proof.
  unfold spec_float_lt, SFltb, SFeqb.
  destruct a as [[]|[]| |[] ma ea], b as [[]|[]| |[] mb eb]; simpl;
    try (intros; congruence);
    compare_cases; simpl; try (intros; congruence); lia.
Qed.

Lemma spec_float_lt_negtrans (a b c : spec_float) :
  spec_float_lt a b = false → spec_float_lt b c = false →
  spec_float_lt a c = false.
Proof.
  unfold spec_float_lt, SFltb, SFeqb.
  destruct a as [[]|[]| |[] ma ea], b as [[]|[]| |[] mb eb],
    c as [[]|[]| |[] mc ec]; simpl;
    try (intros; congruence);
    compare_cases; simpl; try (intros; congruence); lia.
Qed.

Lemma float_lt_spec (a b : float) :
  float_lt a b = spec_float_lt (Prim2SF a) (Prim2SF b).
Proof.
  unfold float_lt, spec_float_lt.
  by rewrite FloatAxioms.ltb_spec, !FloatAxioms.eqb_spec.
Qed.

(** The order numpy sorts binary64 scores by is a strict weak order, NaN
    included. *)
#[export] Instance float64_order : ScoreOrder float.
Proof.
  split; simpl; intros *; rewrite !float_lt_spec.
  - apply spec_float_lt_asym.
  - apply spec_float_lt_negtrans.
Qed.

End FloatOrder.

(** ** Sorting by score *)

Section SortFacts.

Import Searcher.

Context {F : Type} `{FloatOps F, !ScoreOrder F} {ties : TieOrder F}.

Lemma insert_by_score_perm (rank : nat → nat) (x : nat * F)
    (l : list (nat * F)) :
  insert_by_score rank x l ≡ₚ x :: l.
Proof.
  induction l as [|y l IH]; simpl; [done|].
  destruct (goes_before rank y x); [|done].
  rewrite IH. apply Permutation_swap.
Qed.

Lemma sort_by_score_perm (rank : nat → nat) (l : list (nat * F)) :
  sort_by_score rank l ≡ₚ l.
Proof.
  induction l as [|x l IH]; simpl; [done|].
  by rewrite insert_by_score_perm, IH.
Qed.

Lemma sorted_entries_perm (similarities : list F) :
  sorted_entries similarities ≡ₚ indexed similarities.
Proof. apply sort_by_score_perm. Qed.

(** An entry that goes before another may stand before it. *)
Lemma goes_before_true (rank : nat → nat) (y x : nat * F) :
  goes_before rank y x = true → sorted_le rank y x.
Proof.
  unfold goes_before.
  intros [Hlt|[Heq Hrank%Nat.ltb_lt]%andb_prop]%orb_prop.
  - split; [by apply flt_asym | congruence].
  - apply negb_true_iff in Heq. split; [done|]. intros _. by left.
Qed.

(** An entry that does not go before another does not score below it, and
    has no lower rank if the scores are equal. *)
Lemma goes_before_false (rank : nat → nat) (y x : nat * F) :
  goes_before rank y x = false →
  flt (snd y) (snd x) = false
  ∧ (flt (snd x) (snd y) = false → rank (fst x) ≤ rank (fst y)).
Proof.
  unfold goes_before. intros [Hlt Hrest]%orb_false_elim.
  split; [done|]. intros Heq. rewrite Heq in Hrest. simpl in Hrest.
  apply Nat.ltb_ge in Hrest. lia.
Qed.

(** Inserting an entry whose index is below all the others keeps the
    order. *)
Lemma insert_by_score_sorted (rank : nat → nat) (x : nat * F)
    (l : list (nat * F)) :
  StronglySorted (sorted_le rank) l →
  Forall (λ y, fst x < fst y) l →
  StronglySorted (sorted_le rank) (insert_by_score rank x l).
Proof.
  induction 1 as [|y l Hl IH Hy]; intros Hx; simpl.
  - repeat constructor.
  - apply Forall_cons in Hx as [Hxy Hx].
    destruct (goes_before rank y x) eqn:Hgo.
    + constructor; [by apply IH|].
      rewrite insert_by_score_perm. constructor; [|done].
      by apply goes_before_true.
    + apply goes_before_false in Hgo as [Hyx Hrank].
      constructor; [by constructor|].
      constructor.
      { split; [done|]. intros Heq. specialize (Hrank Heq).
        unfold tie_before. lia. }
      rewrite Forall_forall in Hy, Hx |- *. intros z Hz.
      destruct (Hy z Hz) as [Hzy Htie].
      split; [by eapply flt_negtrans|]. intros Hxz.
      assert (flt (snd x) (snd y) = false) as Hxy'
        by (by eapply flt_negtrans).
      assert (flt (snd y) (snd z) = false) as Hyz
        by (by eapply flt_negtrans).
      specialize (Hrank Hxy'). specialize (Htie Hyz). specialize (Hx z Hz).
      unfold tie_before in *. simpl in *. lia.
Qed.

Lemma sort_by_score_sorted (rank : nat → nat) (l : list (nat * F)) :
  StronglySorted (λ a b, fst a < fst b) l →
  StronglySorted (sorted_le rank) (sort_by_score rank l).
Proof.
  induction 1 as [|x l Hl IH Hx]; simpl; [constructor|].
  apply insert_by_score_sorted; [done|].
  by rewrite sort_by_score_perm.
Qed.

Lemma combine_seq_increasing (start : nat) (l : list F) :
  StronglySorted (λ a b : nat * F, fst a < fst b)
    (combine (seq start (length l)) l).
Proof.
  revert start. induction l as [|x l IH]; intros start; simpl; [constructor|].
  constructor; [apply IH|].
  apply Forall_forall. intros [i v] Hiv%list_elem_of_In%in_combine_l.
  apply in_seq in Hiv. simpl. lia.
Qed.

Lemma combine_seq_lookup (start : nat) (l : list F) (i : nat) (v : F) :
  (i, v) ∈ combine (seq start (length l)) l →
  start ≤ i ∧ l !! (i - start) = Some v.
Proof.
  revert start. induction l as [|x l IH]; intros start; simpl.
  - by intros ?%elem_of_nil.
  - intros [[= -> ->]|Hin]%elem_of_cons.
    + split; [lia|]. by rewrite Nat.sub_diag.
    + destruct (IH _ Hin) as [Hle Hl]. split; [lia|].
      replace (i - start) with (S (i - S start)) by lia. done.
Qed.

(** The entries being sorted pair every index with its own score. *)
Lemma indexed_lookup (similarities : list F) (i : nat) (v : F) :
  (i, v) ∈ indexed similarities → similarities !! i = Some v.
Proof.
  intros [_ Hl]%combine_seq_lookup. by rewrite Nat.sub_0_r in Hl.
Qed.

Lemma combine_seq_elem (start : nat) (l : list F) (j : nat) (w : F) :
  l !! j = Some w → (start + j, w) ∈ combine (seq start (length l)) l.
Proof.
  revert start j. induction l as [|x l IH]; intros start [|j]; simpl; try done.
  - intros [= ->]. rewrite Nat.add_0_r. by left.
  - intros Hj. right. replace (start + S j) with (S start + j) by lia.
    by apply IH.
Qed.

(** Every score is among the entries being sorted, with its index. *)
Lemma indexed_elem (similarities : list F) (j : nat) (w : F) :
  similarities !! j = Some w → (j, w) ∈ indexed similarities.
Proof. intros Hj. by apply (combine_seq_elem 0). Qed.

Lemma sorted_indexed (similarities : list F) :
  StronglySorted (sorted_le (tie_rank similarities))
    (sorted_entries similarities).
Proof. apply sort_by_score_sorted, combine_seq_increasing. Qed.

Lemma argsort_length (similarities : list F) :
  length (argsort similarities) = length similarities.
Proof.
  unfold argsort, indexed.
  rewrite length_map, (Permutation_length (sorted_entries_perm _)).
  unfold indexed.
  rewrite length_combine, length_seq. lia.
Qed.

Lemma slice_from_map {A B} (f : A → B) (start : Z) (l : list A) :
  slice_from start (map f l) = map f (slice_from start l).
Proof. unfold slice_from. by rewrite length_map, skipn_map. Qed.

(** With [top_k] at least 1, the slice [[-top_k:]] keeps at most [top_k]
    entries. *)
Lemma slice_from_last_length {A} (top_k : Z) (l : list A) :
  (1 ≤ top_k)%Z → length (slice_from (- top_k) l) ≤ Z.to_nat top_k.
Proof.
  intros Hk. unfold slice_from.
  destruct (- top_k <? 0)%Z eqn:Hneg; [|apply Z.ltb_ge in Hneg; lia].
  rewrite length_drop. lia.
Qed.

Lemma StronglySorted_drop {A} (R : relation A) (n : nat) (l : list A) :
  StronglySorted R l → StronglySorted R (drop n l).
Proof.
  revert l. induction n as [|n IH]; intros l Hl; [done|].
  destruct l as [|x l]; [done|]. simpl. apply IH.
  by apply StronglySorted_inv in Hl as [? _].
Qed.

Lemma StronglySorted_rev {A} (R : relation A) (l : list A) :
  StronglySorted R l → StronglySorted (flip R) (rev l).
Proof.
  induction 1 as [|x l Hl IH Hx]; simpl; [constructor|].
  apply StronglySorted_app. split_and!; [|done|repeat constructor].
  intros y z Hy%list_elem_of_In%in_rev%list_elem_of_In ->%list_elem_of_singleton.
  rewrite Forall_forall in Hx. by apply Hx.
Qed.

Lemma top_k_indices_entries (similarities : list F) (top_k : Z) :
  top_k_indices similarities top_k = map fst (top_entries similarities top_k).
Proof.
  unfold top_k_indices, top_entries, argsort.
  by rewrite slice_from_map, map_rev.
Qed.

Lemma top_entries_sorted (similarities : list F) (top_k : Z) :
  StronglySorted (flip (sorted_le (tie_rank similarities)))
    (top_entries similarities top_k).
Proof.
  apply StronglySorted_rev, StronglySorted_drop, sorted_indexed.
Qed.

Lemma top_entries_lookup (similarities : list F) (top_k : Z) (i : nat) (v : F) :
  (i, v) ∈ top_entries similarities top_k → similarities !! i = Some v.
Proof.
  unfold top_entries, slice_from.
  intros Hin%list_elem_of_In%in_rev%list_elem_of_In.
  apply indexed_lookup. rewrite <- (sorted_entries_perm similarities).
  by eapply subseteq_drop.
Qed.

End SortFacts.

(** ** The image searcher *)

Section SearchFacts.

Import Searcher.

Context {F : Type} `{FloatOps F} {ties : TieOrder F}.

Lemma collect_elem (paths : list str) (similarities : list F)
    (indices : list nat) (path : str) (score : F) :
  (path, score) ∈ collect paths similarities indices →
  ∃ i, i ∈ indices ∧ paths !! i = Some path ∧ similarities !! i = Some score.
Proof.
  induction indices as [|i indices IH]; simpl.
  - by intros ?%elem_of_nil.
  - destruct (paths !! i) as [p|] eqn:Hp, (similarities !! i) as [v|] eqn:Hv;
      simpl.
    2-4: intros (j & Hj & ?)%IH; exists j; split; [by right | done].
    intros [[= -> ->]|(j & Hj & ?)%IH]%elem_of_cons.
    + exists i. split; [by left | done].
    + exists j. split; [by right | done].
Qed.

Lemma collect_length (paths : list str) (similarities : list F)
    (indices : list nat) :
  length (collect paths similarities indices) ≤ length indices.
Proof.
  induction indices as [|i indices IH]; simpl; [done|].
  destruct (paths !! i), (similarities !! i); simpl; lia.
Qed.

(** The result loop keeps the order of the indices it is given. *)
Lemma collect_sorted (rank : nat → nat) (paths : list str)
    (similarities : list F) (entries : list (nat * F)) :
  StronglySorted (flip (sorted_le rank)) entries →
  (∀ i v, (i, v) ∈ entries → similarities !! i = Some v) →
  StronglySorted not_below (collect paths similarities (map fst entries)).
Proof.
  induction 1 as [|[i v] entries Hs IH Hhd]; intros Hlook; simpl; [constructor|].
  assert (StronglySorted not_below
            (collect paths similarities (map fst entries))) as Hrest.
  { apply IH. intros j w Hj. apply Hlook. by right. }
  rewrite (Hlook i v) by left.
  destruct (paths !! i) as [p|]; simpl; [|done].
  constructor; [done|].
  apply Forall_forall. intros [p' v'] (j & Hj & _ & Hv')%collect_elem.
  apply list_elem_of_In, in_map_iff in Hj as ([j' w] & Heq & Hin).
  simpl in Heq; subst j'. apply list_elem_of_In in Hin.
  rewrite (Hlook j w) in Hv' by (by right). injection Hv' as <-.
  rewrite Forall_forall in Hhd. by destruct (Hhd _ Hin) as [Hle _].
Qed.

(** Among the indices walked through, entries of equal score come in the
    reverse of the order [np.argsort] returns them in. *)
Lemma top_k_indices_argsort_reversed `{!ScoreOrder F} (similarities : list F)
    (top_k : Z) :
  StronglySorted (argsort_reversed similarities)
    (top_k_indices similarities top_k).
Proof.
  rewrite top_k_indices_entries.
  pose proof (top_entries_sorted similarities top_k) as Hs.
  pose proof (top_entries_lookup similarities top_k) as Hlook.
  induction Hs as [|[i v] entries Hs IH Hhd]; simpl; [constructor|].
  constructor.
  { apply IH. intros j w Hj. apply Hlook. by right. }
  apply Forall_forall. intros j Hj.
  apply list_elem_of_In, in_map_iff in Hj as ([j' w] & Heq & Hin).
  simpl in Heq; subst j'. apply list_elem_of_In in Hin.
  intros si sj Hsi Hsj Hij Hji.
  rewrite (Hlook i v) in Hsi by left. injection Hsi as <-.
  rewrite (Hlook j w) in Hsj by (by right). injection Hsj as <-.
  rewrite Forall_forall in Hhd. destruct (Hhd _ Hin) as [_ Hidx].
  by apply Hidx.
Qed.

(** For [top_k] at least 1, on scores ordered as a strict weak order, a
    search that answers returns at most [top_k] pairs, in descending
    order of score. *)
Lemma search_top_k_descending `{!ScoreOrder F} (s : ImageSearcher F)
    (text_embedding : option (list F)) (top_k : Z)
    (results : list (str * F)) :
  (1 ≤ top_k)%Z →
  search s text_embedding top_k = Some results →
  length results ≤ Z.to_nat top_k ∧ StronglySorted not_below results.
Proof.
  intros Hk. unfold search.
  destruct (normalized_image_embeddings s) as [images|]; [|done].
  destruct (image_paths s) as [paths|]; [|done].
  destruct text_embedding as [query|]; [|done].
  destruct (similarities_of query images) as [similarities|]; [|done].
  intros [= <-]. split.
  - etransitivity; [apply collect_length|].
    unfold top_k_indices. rewrite length_rev.
    by apply slice_from_last_length.
  - rewrite top_k_indices_entries.
    eapply collect_sorted; [apply top_entries_sorted | apply top_entries_lookup].
Qed.

(** Of two entries of a sorted list, the one at the lower position is
    related to the other. *)
Lemma StronglySorted_positions {A} (R : relation A) (l : list A)
    (p q : nat) (x y : A) :
  StronglySorted R l → p < q → l !! p = Some x → l !! q = Some y → R x y.
Proof.
  intros Hs. revert p q.
  induction Hs as [|z l Hs IH Hz]; intros p q Hpq Hp Hq; [done|].
  destruct q as [|q]; [lia|]. simpl in Hq.
  destruct p as [|p]; simpl in Hp.
  - injection Hp as ->. rewrite Forall_forall in Hz.
    by eapply Hz, list_elem_of_lookup_2.
  - apply (IH p q); [lia | done | done].
Qed.

(** [np.argsort] returns two equal scores in the order of their ranks:
    whichever of two indices is given the lower rank comes first. *)
Lemma argsort_follows_rank `{!ScoreOrder F} (similarities : list F)
    (i j : nat) (vi vj : F) :
  similarities !! i = Some vi → similarities !! j = Some vj →
  flt vi vj = false → flt vj vi = false →
  tie_rank similarities i < tie_rank similarities j →
  precedes (argsort similarities) i j.
Proof.
  intros Hi Hj Hij Hji Hrank.
  pose proof (sorted_indexed similarities) as Hsorted.
  assert ((i, vi) ∈ sorted_entries similarities) as [p Hp]%list_elem_of_lookup
    by (rewrite sorted_entries_perm; by apply indexed_elem).
  assert ((j, vj) ∈ sorted_entries similarities) as [q Hq]%list_elem_of_lookup
    by (rewrite sorted_entries_perm; by apply indexed_elem).
  exists p, q. unfold argsort.
  change (map ?f ?l) with (f <$> l). rewrite !list_lookup_fmap, Hp, Hq.
  split_and!; [|done..].
  destruct (decide (p < q)) as [|Hge]; [done|]. exfalso.
  destruct (decide (p = q)) as [<-|Hne].
  { rewrite Hp in Hq. injection Hq as -> _. lia. }
  destruct (StronglySorted_positions _ _ q p _ _ Hsorted ltac:(lia) Hq Hp)
    as [_ Htie].
  specialize (Htie Hji). unfold tie_before in Htie. simpl in Htie. lia.
Qed.

(** The indices walked through stand in the reverse of the order in which
    [np.argsort] returns them. *)
Lemma top_k_indices_precedes (similarities : list F) (top_k : Z) (i j : nat) :
  precedes (top_k_indices similarities top_k) i j →
  precedes (argsort similarities) j i.
Proof.
  unfold top_k_indices, slice_from.
  set (n := Z.to_nat _). set (l := drop n (argsort similarities)).
  intros (p & q & Hpq & Hp & Hq).
  pose proof (lookup_lt_Some _ _ _ Hp) as Hlp.
  pose proof (lookup_lt_Some _ _ _ Hq) as Hlq.
  rewrite length_rev in Hlp, Hlq.
  rewrite rev_alt in Hp, Hq.
  change (rev_append l []) with (reverse l) in Hp, Hq.
  rewrite reverse_lookup in Hp, Hq by done.
  subst l. rewrite lookup_drop in Hp, Hq.
  eexists _, _. split; [|split; [exact Hq | exact Hp]]. lia.
Qed.

End SearchFacts.

(** ** The orders [np.argsort] may return *)

Section ArgsortOrders.

Import Searcher.

Context {F : Type} `{FloatOps F, !ScoreOrder F}.

Lemma position_lookup (i : nat) (l : list nat) :
  i ∈ l → l !! position i l = Some i.
Proof.
  induction l as [|j l IH]; [by intros ?%elem_of_nil|]. simpl.
  destruct (decide (i = j)) as [->|Hne]; [done|].
  intros [->|Hin]%elem_of_cons; [done|]. by apply IH.
Qed.

Lemma position_of_lookup (l : list nat) (p i : nat) :
  NoDup l → l !! p = Some i → position i l = p.
Proof.
  intros Hl Hp. eapply NoDup_lookup; [done| |done].
  apply position_lookup. by eapply list_elem_of_lookup_2.
Qed.

(** A list whose entries are related position by position is sorted. *)
Lemma StronglySorted_of_positions {A} (R : relation A) (l : list A) :
  (∀ p q x y, p < q → l !! p = Some x → l !! q = Some y → R x y) →
  StronglySorted R l.
Proof.
  induction l as [|z l IH]; intros Hl; constructor.
  - apply IH. intros p q x y Hpq Hp Hq. apply (Hl (S p) (S q)); [lia|done..].
  - apply Forall_forall. intros y [q Hq]%list_elem_of_lookup.
    apply (Hl 0 (S q)); [lia|done..].
Qed.

(** Every ascending order of the indices is what [np.argsort] returns
    under some order of the ties: the tie orders leave out no sort. *)
Lemma argsort_any_order (similarities : list F) (order : list nat) :
  order ≡ₚ seq 0 (length similarities) →
  (∀ p q i j vi vj,
     p < q → order !! p = Some i → order !! q = Some j →
     similarities !! i = Some vi → similarities !! j = Some vj →
     flt vj vi = false) →
  ∃ ties : TieOrder F, argsort (ties := ties) similarities = order.
Proof.
  intros Hperm Hasc.
  set (ties := (λ _ i, position i order) : TieOrder F).
  exists ties.
  assert (NoDup order) as Hnodup by (rewrite Hperm; apply NoDup_seq).
  assert (argsort similarities ≡ₚ order) as Hsame.
  { unfold argsort. rewrite sorted_entries_perm, Hperm.
    unfold indexed. clear. generalize 0.
    induction similarities as [|x l IH]; intros start; simpl; [done|].
    by rewrite IH. }
  apply (StronglySorted_unique_strong
           (λ i j, position i order < position j order)); [|  | |done].
  - intros; lia.
  - apply StronglySorted_of_positions. intros p q i j Hpq Hp Hq.
    unfold argsort in Hp, Hq. change (map ?f ?l) with (f <$> l) in Hp, Hq.
    rewrite list_lookup_fmap in Hp, Hq.
    destruct (sorted_entries similarities !! p) as [[i' vi]|] eqn:Hpe; [|done].
    destruct (sorted_entries similarities !! q) as [[j' vj]|] eqn:Hqe; [|done].
    simpl in Hp, Hq. injection Hp as ->. injection Hq as ->.
    destruct (StronglySorted_positions _ _ p q _ _
                (sorted_indexed similarities) Hpq Hpe Hqe) as [Hle Htie].
    simpl in Hle, Htie.
    assert (similarities !! i = Some vi) as Hvi.
    { apply indexed_lookup. rewrite <- (sorted_entries_perm similarities).
      by eapply list_elem_of_lookup_2. }
    assert (similarities !! j = Some vj) as Hvj.
    { apply indexed_lookup. rewrite <- (sorted_entries_perm similarities).
      by eapply list_elem_of_lookup_2. }
    assert (i ∈ order) as Hi.
    { rewrite <- Hsame. unfold argsort.
      apply list_elem_of_In, (in_map fst _ (i, vi)), list_elem_of_In.
      by eapply list_elem_of_lookup_2. }
    assert (j ∈ order) as Hj.
    { rewrite <- Hsame. unfold argsort.
      apply list_elem_of_In, (in_map fst _ (j, vj)), list_elem_of_In.
      by eapply list_elem_of_lookup_2. }
    assert (i ≠ j) as Hne.
    { intros ->. assert (NoDup (argsort similarities)) as Hnd
        by (by rewrite Hsame).
      assert (p = q); [|lia].
      eapply (NoDup_lookup (argsort similarities)); [done| |];
        unfold argsort; change (map ?f ?l) with (f <$> l);
        rewrite list_lookup_fmap; [by rewrite Hpe | by rewrite Hqe]. }
    assert (position i order ≠ position j order) as Hpos.
    { intros Heq. apply Hne.
      pose proof (position_lookup i order Hi) as H1.
      pose proof (position_lookup j order Hj) as H2.
      rewrite Heq in H1. congruence. }
    destruct (flt vi vj) eqn:Hij.
    + destruct (decide (position i order < position j order)); [done|].
      exfalso.
      assert (flt vi vj = false); [|congruence].
      apply (Hasc (position j order) (position i order) j i vj vi);
        [lia | by apply position_lookup | by apply position_lookup | done..].
    + specialize (Htie eq_refl). unfold tie_before, tie_rank, ties in Htie.
      lia.
  - apply StronglySorted_of_positions. intros p q i j Hpq Hp Hq.
    by rewrite (position_of_lookup order p i), (position_of_lookup order q j).
Qed.

End ArgsortOrders.

(** ** The image searcher: ties and loading *)

Section SearchTies.

Import Searcher.

Context {F : Type} `{FloatOps F} {ties : TieOrder F}.

(** C5, as the code has it: [search] has no tie-break of its own.  The
    results are the paths and scores of [top_k_indices]; that list is in
    the reverse of the order of [np.argsort], so that two indices whose
    scores are equal stand in the reverse of the order [np.argsort]
    returns them in; and [np.argsort] fixes no such order: of two equal
    scores it may return either index first. *)
Theorem ties_come_in_reverse_argsort_order `{!ScoreOrder F}
    (s : ImageSearcher F) (images : ndarray2 F) (paths : list str)
    (query similarities : list F) (top_k : Z) :
  normalized_image_embeddings s = Some images →
  image_paths s = Some paths →
  similarities_of query images = Some similarities →
  search s (Some query) top_k
    = Some (collect paths similarities (top_k_indices similarities top_k))
  ∧ (∀ i j, precedes (top_k_indices similarities top_k) i j →
            precedes (argsort similarities) j i)
  ∧ StronglySorted (argsort_reversed similarities)
      (top_k_indices similarities top_k)
  ∧ ∀ i j vi vj,
      i ≠ j →
      similarities !! i = Some vi → similarities !! j = Some vj →
      flt vi vj = false → flt vj vi = false →
      ∃ ties' : TieOrder F,
        precedes (argsort (ties := ties') similarities) i j.
Proof.
  intros Himg Hpaths Hsim. split_and!.
  - unfold search. by rewrite Himg, Hpaths, Hsim.
  - apply top_k_indices_precedes.
  - apply top_k_indices_argsort_reversed.
  - intros i j vi vj Hne Hi Hj Hij Hji.
    exists (λ _ k, if decide (k = i) then 0 else 1).
    apply (argsort_follows_rank (ties := λ _ k, if decide (k = i) then 0 else 1)
             similarities i j vi vj); try done.
    unfold tie_rank. rewrite decide_True by done.
    rewrite decide_False by done. lia.
Qed.

(** C9, as the code has it: when the two artifacts are readable and their
    lengths differ, the load step logs a mismatch warning and completes with
    both kept exactly as they were persisted; the constructor then builds
    the searcher on them. *)
Theorem load_mismatch_only_warns (embeddings : ndarray2 F) (paths : list str) :
  length paths ≠ length (rows embeddings) →
  _load_data (Holds embeddings) (Holds paths)
    = (inr (embeddings, paths),
       [LogWarning "Mismatch between number of embeddings and paths!"])
  ∧ ∃ s, fst (Searcher.__init__ (Holds embeddings) (Holds paths)) = inr s
         ∧ image_embeddings s = Some embeddings
         ∧ image_paths s = Some paths.
Proof.
  intros Hne. apply Nat.eqb_neq in Hne.
  unfold Searcher.__init__, _load_data. rewrite Hne. simpl. split; [done|].
  eexists. split; [done|]. done.
Qed.

End SearchTies.

(** ** The image searcher on sample indexes *)

Section SearchExamples.

Import Searcher Samples.

(** C4 at [top_k = 0]: the slice [[-0:]] is the whole array, so a search
    for the top 0 of two images returns both of them, which is more than
    [top_k] results. *)
Theorem search_top_0_returns_all (ties : TieOrder float) :
  Searcher.__init__ (Holds two_images) (Holds two_paths) = (inr two_searcher, [])
  ∧ ∃ results,
      search two_searcher (Some [1; 0]%float) 0 = Some results
      ∧ map fst results = [py "a.jpg"; py "b.jpg"]
      ∧ ¬ (Z.of_nat (length results) ≤ 0)%Z.
Proof.
  split; [reflexivity|]. eexists.
  split_and!; [vm_compute; reflexivity | reflexivity | simpl; lia].
Qed.

Lemma ties_come_in_reverse_argsort_order_witness :
  ∃ similarities,
    similarities_of [1; 0]%float (_normalize_embeddings twin_images)
      = Some similarities
    ∧ search (ties := index_order) twin_searcher (Some [1; 0]%float) 2
      = Some (collect two_paths similarities
                (top_k_indices (ties := index_order) similarities 2))
    ∧ (precedes (top_k_indices (ties := index_order) similarities 2) 1 0 →
       precedes (argsort (ties := index_order) similarities) 0 1)
    ∧ StronglySorted (argsort_reversed (ties := index_order) similarities)
        (top_k_indices (ties := index_order) similarities 2)
    ∧ ∃ ties' : TieOrder float,
        precedes (argsort (ties := ties') similarities) 1 0.
Proof.
  eexists. split; [vm_compute; reflexivity|].
  destruct (ties_come_in_reverse_argsort_order (ties := index_order)
              twin_searcher (_normalize_embeddings twin_images) two_paths
              [1; 0]%float _ 2 eq_refl eq_refl eq_refl)
    as (Hsearch & Hrev & Hsorted & Hopen).
  split_and!; [exact Hsearch | exact (Hrev 1 0) | exact Hsorted |].
  eapply (Hopen 1 0); [lia | reflexivity | reflexivity | |];
    vm_compute; reflexivity.
Defined.

(** C5 fails as stated: two images with the same embedding score the same
    for every query, and when [np.argsort] returns their indices in
    ascending order, as a stable sort does, the search returns the one
    loaded second first, alone when only the best match is asked for. *)
Lemma tie_returns_later_image_first :
  Searcher.__init__ (Holds twin_images) (Holds two_paths) = (inr twin_searcher, [])
  ∧ argsort (ties := index_order) [1; 1]%float = [0; 1]
  ∧ (∃ x, search (ties := index_order) twin_searcher (Some [1; 0]%float) 2
          = Some [(py "b.jpg", x); (py "a.jpg", x)])
  ∧ (∃ x, search (ties := index_order) twin_searcher (Some [1; 0]%float) 1
          = Some [(py "b.jpg", x)]).
Proof.
  split_and!; [reflexivity | reflexivity | |]; eexists; vm_compute; reflexivity.
Qed.

(** Nor is the later image always first: when [np.argsort] returns the two
    indices in descending order, the search returns the image loaded
    first. *)
Lemma tie_returns_earlier_image_first :
  argsort (ties := reverse_index_order) [1; 1]%float = [1; 0]
  ∧ (∃ x, search (ties := reverse_index_order) twin_searcher
            (Some [1; 0]%float) 2
          = Some [(py "a.jpg", x); (py "b.jpg", x)])
  ∧ (∃ x, search (ties := reverse_index_order) twin_searcher
            (Some [1; 0]%float) 1
          = Some [(py "a.jpg", x)]).
Proof.
  split_and!; [reflexivity | |]; eexists; vm_compute; reflexivity.
Qed.

Lemma load_mismatch_only_warns_witness :
  _load_data (Holds two_images) (Holds [py "a.jpg"])
    = (inr (two_images, [py "a.jpg"]),
       [LogWarning "Mismatch between number of embeddings and paths!"])
  ∧ ∃ s, fst (Searcher.__init__ (Holds two_images) (Holds [py "a.jpg"])) = inr s
         ∧ image_embeddings s = Some two_images
         ∧ image_paths s = Some [py "a.jpg"].
Proof.
  apply (load_mismatch_only_warns two_images [py "a.jpg"]).
  simpl. lia.
Defined.

(** C9 fails as stated: with two embeddings and one path the constructor
    completes, and the searcher it returns holds two rows and one path. *)
Lemma load_completes_with_mismatch :
  ∃ s, fst (Searcher.__init__ (Holds two_images) (Holds [py "a.jpg"])) = inr s
       ∧ (length <$> image_paths s) = Some 1
       ∧ (length <$> (rows <$> image_embeddings s)) = Some 2
       ∧ (length <$> (rows <$> normalized_image_embeddings s)) = Some 2.
Proof. eexists. split_and!; reflexivity. Qed.

End SearchExamples.

(** ** More on strings *)

Section StripFacts.

Import PyStr.

Lemma elem_of_rev {A} (x : A) (l : list A) : x ∈ rev l ↔ x ∈ l.
Proof. rewrite !list_elem_of_In. symmetry. apply in_rev. Qed.

Lemma lstrip_spaces (pre s : str) :
  Forall (λ c, isspace c = true) pre → lstrip (pre ++ s) = lstrip s.
Proof.
  induction 1 as [|c pre Hc _ IH]; simpl; [done|]. by rewrite Hc.
Qed.

Lemma lstrip_keeps (c : ascii) (s t : str) :
  isspace c = false → lstrip ((c :: s) ++ t) = (c :: s) ++ t.
Proof. intros Hc. simpl. by rewrite Hc. Qed.

Lemma lstrip_app_nonempty (s t : str) :
  lstrip s ≠ [] → lstrip (s ++ t) = lstrip s ++ t.
Proof.
  induction s as [|c s IH]; simpl; [done|].
  destruct (isspace c); [apply IH | done].
Qed.

Lemma lstrip_length (s : str) : length (lstrip s) ≤ length s.
Proof.
  induction s as [|c s IH]; simpl; [done|].
  destruct (isspace c); simpl; lia.
Qed.

Lemma rstrip_length (s : str) : length (rstrip s) ≤ length s.
Proof.
  unfold rstrip. rewrite length_rev.
  etransitivity; [apply lstrip_length|]. by rewrite length_rev.
Qed.

(** A string that [lstrip] leaves at its length is left as it is. *)
Lemma lstrip_same_length (s : str) :
  length (lstrip s) = length s → lstrip s = s.
Proof.
  destruct s as [|c s]; simpl; [done|].
  destruct (isspace c); [|done].
  pose proof (lstrip_length s). lia.
Qed.

Lemma rstrip_spaces (s post : str) :
  Forall (λ c, isspace c = true) post → rstrip (s ++ post) = rstrip s.
Proof.
  intros Hpost. unfold rstrip. rewrite rev_app_distr, lstrip_spaces; [done|].
  rewrite Forall_forall in Hpost |- *. intros c Hc.
  apply Hpost. exact (proj1 (elem_of_rev _ _) Hc).
Qed.

Lemma rstrip_app_nonempty (s t : str) :
  rstrip t ≠ [] → rstrip (s ++ t) = s ++ rstrip t.
Proof.
  intros Ht. unfold rstrip in *. rewrite rev_app_distr.
  rewrite lstrip_app_nonempty.
  - by rewrite rev_app_distr, rev_involutive.
  - intros E. apply Ht. by rewrite E.
Qed.

(** A string is stripped when [strip] keeps it; it then neither starts nor
    ends with a space. *)
Lemma stripped_both (s : str) :
  strip s = s → lstrip s = s ∧ rstrip s = s.
Proof.
  intros Hs. unfold strip in Hs.
  assert (lstrip s = s) as Hl.
  { apply lstrip_same_length. pose proof (lstrip_length s).
    pose proof (rstrip_length (lstrip s)). rewrite Hs in *. lia. }
  split; [done|]. by rewrite Hl in Hs.
Qed.

Lemma stripped_head (c : ascii) (s : str) :
  strip (c :: s) = c :: s → isspace c = false.
Proof.
  intros [Hl _]%stripped_both. simpl in Hl.
  destruct (isspace c); [|done].
  pose proof (lstrip_length s) as Hlen. rewrite Hl in Hlen. simpl in Hlen. lia.
Qed.

(** A stripped text with spaces around it is stripped back to itself. *)
Lemma strip_spaces_around (pre s post : str) :
  s ≠ [] → strip s = s →
  Forall (λ c, isspace c = true) pre →
  Forall (λ c, isspace c = true) post →
  strip (pre ++ s ++ post) = s.
Proof.
  intros Hne Hs Hpre Hpost. destruct (stripped_both s Hs) as [Hl Hr].
  unfold strip. rewrite lstrip_spaces by done.
  rewrite lstrip_app_nonempty by (by rewrite Hl).
  by rewrite Hl, rstrip_spaces.
Qed.

(** Two stripped texts joined are stripped. *)
Lemma strip_app_stripped (a b : str) :
  a ≠ [] → b ≠ [] → lstrip a = a → rstrip b = b → strip (a ++ b) = a ++ b.
Proof.
  intros Ha Hb Hla Hrb. unfold strip.
  rewrite lstrip_app_nonempty by (by rewrite Hla).
  rewrite Hla. rewrite rstrip_app_nonempty by (by rewrite Hrb).
  by rewrite Hrb.
Qed.

Lemma strip_nothing (s : str) :
  Forall (λ c, isspace c = true) s → strip s = [].
Proof.
  intros Hs. unfold strip.
  assert (lstrip s = []) as ->; [|done].
  rewrite <- (app_nil_r s). by rewrite lstrip_spaces.
Qed.

Lemma lstrip_sublist (s : str) : lstrip s ⊆ s.
Proof.
  induction s as [|c s IH]; simpl; [done|].
  destruct (isspace c); [|done]. set_solver.
Qed.

(** [strip] only removes characters. *)
Lemma strip_subseteq (s : str) : strip s ⊆ s.
Proof.
  unfold strip, rstrip. intros c Hc.
  apply lstrip_sublist.
  apply (proj1 (elem_of_rev _ _)), lstrip_sublist in Hc.
  exact (proj1 (elem_of_rev _ _) Hc).
Qed.

Lemma split_char_from_app (c : ascii) (cur a rest : str) :
  c ∉ a →
  split_char_from c cur (a ++ rest) = split_char_from c (rev a ++ cur) rest.
Proof.
  revert cur. induction a as [|x a IH]; intros cur Hc; simpl; [done|].
  apply not_elem_of_cons in Hc as [Hx Ha].
  destruct (Ascii.eqb_spec x c); [congruence|].
  rewrite IH by done. by rewrite <- app_assoc.
Qed.

(** A line without the separator is one piece, and the text after the
    separator is split on its own. *)
Lemma split_char_cons (c : ascii) (a rest : str) :
  c ∉ a → split_char c (a ++ c :: rest) = a :: split_char c rest.
Proof.
  intros Hc. unfold split_char. rewrite split_char_from_app by done. simpl.
  rewrite Ascii.eqb_refl. by rewrite app_nil_r, rev_involutive.
Qed.

Lemma split_char_one (c : ascii) (a : str) :
  c ∉ a → split_char c a = [a].
Proof.
  intros Hc. unfold split_char.
  rewrite <- (app_nil_r a) at 1. rewrite split_char_from_app by done. simpl.
  by rewrite app_nil_r, rev_involutive.
Qed.

Lemma split_char_from_pieces (c : ascii) (cur s : str) :
  c ∉ cur → Forall (λ piece, c ∉ piece) (split_char_from c cur s).
Proof.
  revert cur. induction s as [|x s IH]; intros cur Hcur; simpl.
  - constructor; [|done]. intros Hc. apply Hcur, elem_of_rev, Hc.
  - destruct (Ascii.eqb_spec x c) as [->|Hx].
    + constructor; [intros Hc; apply Hcur, elem_of_rev, Hc|].
      apply IH, not_elem_of_nil.
    + apply IH, not_elem_of_cons. split; [congruence | done].
Qed.

(** No piece of [s.split(c)] holds the separator. *)
Lemma split_char_pieces (c : ascii) (s : str) :
  Forall (λ piece, c ∉ piece) (split_char c s).
Proof. apply split_char_from_pieces, not_elem_of_nil. Qed.

Lemma startswith_prefix (p s : str) : startswith p (p ++ s) = true.
Proof.
  induction p as [|a p IH]; simpl; [done|]. by rewrite Ascii.eqb_refl.
Qed.

Lemma startswith_contains (sub s : str) :
  startswith sub s = true → contains sub s = true.
Proof. intros Hs. destruct s; simpl in *; by rewrite Hs. Qed.

End StripFacts.

(** ** More on the analysis store *)

Section StorageCalls.

Import Storage.

Implicit Types (st : SongAnalysisStorage) (d : analysis_data).

Lemma add_line_table st d (u : str) :
  current_song_title st ≠ Some u →
  song_data (add_analysis_line st d) !! u = song_data st !! u.
Proof.
  intros Hu. unfold add_analysis_line.
  destruct (absent_or_empty (lyric d) || absent_or_empty (sentence d)); [done|].
  destruct (lyric d) as [l|], (sentence d) as [s|]; try done.
  destruct (falsy (_normalize_lyric l)); [done|].
  destruct (current_song_title st) as [t|] eqn:Hcur; [|done].
  simpl. apply lookup_insert_ne. congruence.
Qed.

(** A stored line is found again under the current song. *)
Lemma find_after_add st (t L S : str) :
  reachable st → current_song_title st = Some t →
  L ≠ [] → S ≠ [] → _normalize_lyric L ≠ [] →
  find_analysis_by_lyric (add_analysis_line st (line L S)) t L = Some S.
Proof.
  intros Hr Hcur HL HS HN.
  pose proof (reachable_current_nonempty st t Hr Hcur) as Ht.
  rewrite (add_line_effective st t L S) by done.
  unfold find_analysis_by_lyric; simpl.
  apply falsy_false in Ht, HL, HN. rewrite Ht, HL, HN; simpl.
  rewrite lookup_insert_eq.
  destruct (decide _) as [E|_]; [by apply insert_non_empty in E|].
  by rewrite lookup_insert_eq.
Qed.

(** X1: With no current song, every record is dropped: the store stays as it
    is, whatever is fed to it. *)
Theorem no_current_song_drops_records st (ds : list analysis_data) :
  current_song_title st = None → add_lines st ds = st.
Proof.
  intros Hcur. induction ds as [|d ds IH] using rev_ind; [done|].
  unfold add_lines in *. rewrite foldl_snoc, IH.
  unfold add_analysis_line. rewrite Hcur.
  destruct (absent_or_empty (lyric d) || absent_or_empty (sentence d)); [done|].
  destruct (lyric d), (sentence d); try done.
  by destruct (falsy _).
Qed.

Lemma no_current_song_drops_records_witness :
  add_lines Storage.__init__
    [line (py "one") (py "first"); line (py "two") (py "second")]
  = Storage.__init__.
Proof.
  apply (no_current_song_drops_records Storage.__init__). reflexivity.
Defined.

(** X2: Two records whose lyrics have the same normal form share one entry,
    and the later sentence replaces the earlier one. *)
Theorem last_write_wins st (t L1 L2 S1 S2 : str) :
  reachable st → current_song_title st = Some t →
  L2 ≠ [] → S2 ≠ [] → _normalize_lyric L2 ≠ [] →
  _normalize_lyric L1 = _normalize_lyric L2 →
  find_analysis_by_lyric
    (add_analysis_line (add_analysis_line st (line L1 S1)) (line L2 S2)) t L1
  = Some S2.
Proof.
  intros Hr Hcur HL HS HN HE.
  rewrite (find_by_normal_form _ t L1 L2 HE).
  apply find_after_add; try done.
  - by apply reach_add.
  - by rewrite add_keeps_current.
Qed.

Lemma last_write_wins_witness :
  find_analysis_by_lyric
    (add_analysis_line
       (add_analysis_line (start_new_song Storage.__init__ (py "song"))
          (line (py "Hello, World!") (py "waving hand")))
       (line (py "hello world") (py "raised hand")))
    (py "song") (py "Hello, World!")
  = Some (py "raised hand").
Proof.
  apply (last_write_wins (start_new_song Storage.__init__ (py "song"))
           (py "song") (py "Hello, World!") (py "hello world")
           (py "waving hand") (py "raised hand")).
  - apply reach_start, reach_init.
  - reflexivity.
  - discriminate.
  - discriminate.
  - vm_compute. discriminate.
  - vm_compute. reflexivity.
Defined.

(** X3: Storing a line leaves the lookups of every line with another normal
    form as they were, under every song. *)
Theorem other_lines_untouched st d (t L Q : str) :
  lyric d = Some L →
  _normalize_lyric L ≠ _normalize_lyric Q →
  find_analysis_by_lyric (add_analysis_line st d) t Q
  = find_analysis_by_lyric st t Q.
Proof.
  intros HL Hne.
  destruct (decide (current_song_title st = Some t)) as [Hcur|Hcur];
    [|by apply find_same_table, add_line_table].
  unfold add_analysis_line. rewrite HL.
  destruct (absent_or_empty (Some L) || absent_or_empty (sentence d)); [done|].
  destruct (sentence d) as [S|]; [|done].
  destruct (falsy (_normalize_lyric L)); [done|].
  rewrite Hcur. unfold find_analysis_by_lyric; simpl.
  destruct (falsy t || falsy Q); [done|].
  destruct (falsy (_normalize_lyric Q)); [done|].
  rewrite lookup_insert_eq.
  destruct (decide _) as [E|_]; [by apply insert_non_empty in E|].
  rewrite lookup_insert_ne by done.
  destruct (song_data st !! t) as [table|]; simpl; [|done].
  destruct (decide (table = ∅)) as [->|]; done.
Qed.

Lemma other_lines_untouched_witness :
  find_analysis_by_lyric
    (add_analysis_line
       (add_analysis_line (start_new_song Storage.__init__ (py "song"))
          (line (py "first line") (py "red door")))
       (line (py "second line") (py "blue sky")))
    (py "song") (py "First line!")
  = find_analysis_by_lyric
      (add_analysis_line (start_new_song Storage.__init__ (py "song"))
         (line (py "first line") (py "red door")))
      (py "song") (py "First line!")
  ∧ find_analysis_by_lyric
      (add_analysis_line (start_new_song Storage.__init__ (py "song"))
         (line (py "first line") (py "red door")))
      (py "song") (py "First line!")
    = Some (py "red door").
Proof.
  split.
  - apply (other_lines_untouched _ (line (py "second line") (py "blue sky"))
             (py "song") (py "second line") (py "First line!"));
      [reflexivity | vm_compute; discriminate].
  - vm_compute. reflexivity.
Defined.

(** What [add_analysis_line] does: nothing, or an upsert into the table of
    the current song. *)
Lemma add_line_cases st d :
  add_analysis_line st d = st
  ∨ ∃ t L S, d = line L S ∧ current_song_title st = Some t
             ∧ L ≠ [] ∧ S ≠ [] ∧ _normalize_lyric L ≠ [].
Proof.
  unfold add_analysis_line. destruct d as [[L|] [S|]]; simpl;
    [|left; by rewrite orb_true_r|by left|by left].
  destruct (falsy L) eqn:HL; simpl; [by left|].
  destruct (falsy S) eqn:HS; simpl; [by left|].
  destruct (falsy (_normalize_lyric L)) eqn:HN; [by left|].
  destruct (current_song_title st) as [t|] eqn:Hcur; [|by left].
  right. exists t, L, S. by rewrite <- !falsy_false.
Qed.

(** X4: Storing the same record twice is storing it once. *)
Theorem add_line_idempotent st d :
  add_analysis_line (add_analysis_line st d) d = add_analysis_line st d.
Proof.
  destruct (add_line_cases st d) as [Hsame|(t & L & S & -> & Hcur & HL & HS & HN)].
  - by rewrite !Hsame.
  - rewrite (add_line_effective st t L S) by done.
    rewrite (add_line_effective _ t L S) by done. simpl.
    rewrite lookup_insert_eq. simpl.
    by rewrite !insert_insert_eq.
Qed.

(** X5: The table of a song that is not current stays as it is through any
    calls that do not start that song again: records only ever go to the
    current song. *)
Theorem non_current_table_frozen st (calls : list call) (t : str) :
  current_song_title st ≠ Some t →
  StartNewSong t ∉ calls →
  get_analysis_dict_for_song (perform_all st calls) t
  = get_analysis_dict_for_song st t
  ∧ current_song_title (perform_all st calls) ≠ Some t.
Proof.
  unfold get_analysis_dict_for_song, perform_all.
  revert st. induction calls as [|c calls IH]; intros st Hcur Hnot; [done|].
  apply not_elem_of_cons in Hnot as [Hc Hnot]. simpl.
  assert (song_data (perform st c) !! t = song_data st !! t
          ∧ current_song_title (perform st c) ≠ Some t) as [Htab Hcur'].
  { destruct c as [u|d]; simpl.
    - unfold start_new_song. destruct (falsy u); [done|]. simpl.
      split; [apply lookup_insert_ne|]; congruence.
    - split; [by apply add_line_table | by rewrite add_keeps_current]. }
  destruct (IH (perform st c) Hcur' Hnot) as [IH1 IH2].
  split; [by rewrite IH1 | done].
Qed.

Lemma non_current_table_frozen_witness :
  let st := add_analysis_line (start_new_song Storage.__init__ (py "A"))
              (line (py "hi") (py "s")) in
  get_analysis_dict_for_song
    (perform_all (start_new_song st (py "B"))
       [AddAnalysisLine (line (py "hi") (py "late"));
        StartNewSong (py "C");
        AddAnalysisLine (line (py "ho") (py "later"))]) (py "A")
  = get_analysis_dict_for_song (start_new_song st (py "B")) (py "A")
  ∧ get_analysis_dict_for_song (start_new_song st (py "B")) (py "A")
    = Some {[ py "hi" := py "s" ]}.
Proof.
  intros st. split.
  - apply (non_current_table_frozen (start_new_song st (py "B"))).
    + discriminate.
    + intros Hin. repeat (apply elem_of_cons in Hin as [Hin|Hin]; [done|]).
      by apply elem_of_nil in Hin.
  - vm_compute. reflexivity.
Defined.

(** X6: No call ever removes a song: a title that is listed stays listed. *)
Theorem stored_songs_never_removed st (calls : list call) :
  get_all_stored_songs st ⊆ get_all_stored_songs (perform_all st calls).
Proof.
  unfold get_all_stored_songs, perform_all.
  revert st. induction calls as [|c calls IH]; intros st; [done|]. simpl.
  etransitivity; [|apply IH].
  destruct c as [u|d]; simpl.
  - unfold start_new_song. destruct (falsy u); [done|]. simpl.
    rewrite dom_insert_L. set_solver.
  - unfold add_analysis_line.
    destruct (absent_or_empty (lyric d) || absent_or_empty (sentence d));
      [done|].
    destruct (lyric d) as [l|], (sentence d) as [s|]; try done.
    destruct (falsy (_normalize_lyric l)); [done|].
    destruct (current_song_title st) as [t|]; [|done]. simpl.
    rewrite dom_insert_L. set_solver.
Qed.

(** X7: In every reachable store the current song has a table, so the branch
    of [add_analysis_line] that re-creates a missing one is never taken,
    and [get_current_song_title] never returns an empty title. *)
Theorem current_song_has_table st (t : str) :
  reachable st → get_current_song_title st = Some t →
  t ≠ [] ∧ is_Some (get_analysis_dict_for_song st t).
Proof.
  unfold get_current_song_title, get_analysis_dict_for_song.
  intros Hr Hcur. split; [by eapply reachable_current_nonempty|].
  revert t Hcur. induction Hr as [|st u Hst IH|st d Hst IH]; intros t.
  - discriminate.
  - unfold start_new_song. destruct (falsy u) eqn:Hu; simpl; [apply IH|].
    intros [= <-]. by rewrite lookup_insert_eq.
  - rewrite add_keeps_current. intros Hcur. specialize (IH t Hcur).
    unfold add_analysis_line.
    destruct (absent_or_empty (lyric d) || absent_or_empty (sentence d));
      [done|].
    destruct (lyric d) as [l|], (sentence d) as [s|]; try done.
    destruct (falsy (_normalize_lyric l)); [done|].
    rewrite Hcur. simpl. by rewrite lookup_insert_eq.
Qed.

Lemma current_song_has_table_witness :
  py "B" ≠ []
  ∧ is_Some (get_analysis_dict_for_song
               (start_new_song
                  (add_analysis_line (start_new_song Storage.__init__ (py "A"))
                     (line (py "hi") (py "s"))) (py "B")) (py "B")).
Proof.
  apply (current_song_has_table
           (start_new_song
              (add_analysis_line (start_new_song Storage.__init__ (py "A"))
                 (line (py "hi") (py "s"))) (py "B")) (py "B")).
  - apply reach_start, reach_add, reach_start, reach_init.
  - reflexivity.
Defined.

End StorageCalls.

(** ** Normal forms of lyrics *)

Section NormalForms.

Import PyStr Storage.

(** A property checked on the 256 characters holds of every character. *)
Lemma all_chars (P : ascii → bool) :
  forallb (λ n, P (ascii_of_nat n)) (seq 0 256) = true → ∀ c, P c = true.
Proof.
  intros Hall c. rewrite forallb_forall in Hall.
  rewrite <- (ascii_nat_embedding c). apply Hall, in_seq.
  pose proof (nat_ascii_bounded c). lia.
Qed.

(** [lower] takes a character that is not deleted to a character of a
    normal form. *)
Lemma lower_char_normal (c : ascii) :
  c ∉ deleted_punctuation → normal_char (lower_char c).
Proof.
  intros Hc.
  assert (normal_after_lower c = true) as Hall
    by (apply all_chars; vm_compute; reflexivity).
  unfold normal_after_lower in Hall.
  rewrite (bool_decide_eq_false_2 _ Hc) in Hall. simpl in Hall.
  apply andb_prop in Hall as [H1%negb_true_iff%bool_decide_eq_false
                              H2%bool_decide_eq_true].
  by split.
Qed.

Lemma space_normal : normal_char " "%char.
Proof.
  split; [|reflexivity]. intros Hin. vm_compute in Hin.
  repeat (apply elem_of_cons in Hin as [Hin|Hin]; [done|]).
  by apply elem_of_nil in Hin.
Qed.

(** The deletion and [lower] leave a text of normal characters as it is. *)
Lemma normal_text_fixed (s : str) :
  Forall normal_char s →
  lower (translate_delete deleted_punctuation s) = s.
Proof.
  induction 1 as [|c s [Hc Hl] _ IH]; [done|].
  unfold translate_delete, str in *. rewrite filter_cons_True by done.
  simpl. by rewrite Hl, IH.
Qed.

Lemma lowered_text_normal (s : str) :
  Forall normal_char (lower (translate_delete deleted_punctuation s)).
Proof.
  unfold translate_delete, lower, str. apply Forall_forall.
  intros c Hc%list_elem_of_In%in_map_iff.
  destruct Hc as (c0 & <- & Hc0%list_elem_of_In%list_elem_of_filter).
  apply lower_char_normal. by destruct Hc0.
Qed.

(** *** Words *)

Lemma split_ws_from_spaces (cur spaces : str) :
  Forall (λ c, isspace c = true) spaces →
  split_ws_from cur spaces = if falsy cur then [] else [rev cur].
Proof.
  intros Hsp. revert cur. induction Hsp as [|c sp Hc _ IH]; intros cur; [done|].
  simpl. rewrite Hc, IH. by destruct cur.
Qed.

Lemma split_ws_from_trailing (cur s spaces : str) :
  Forall (λ c, isspace c = true) spaces →
  split_ws_from cur (s ++ spaces) = split_ws_from cur s.
Proof.
  intros Hsp. revert cur. induction s as [|c s IH]; intros cur; simpl.
  - by apply split_ws_from_spaces.
  - destruct (isspace c); [|apply IH]. destruct (falsy cur); by rewrite IH.
Qed.

Lemma lstrip_decompose (s : str) :
  ∃ spaces, s = spaces ++ lstrip s ∧ Forall (λ c, isspace c = true) spaces.
Proof.
  induction s as [|c s (sp & Hs & Hsp)]; simpl; [by exists []|].
  destruct (isspace c) eqn:Hc; [|by exists []].
  exists (c :: sp). split; [simpl; f_equal; exact Hs | by constructor].
Qed.

(** [split] does not see the spaces that [strip] removes. *)
Lemma split_ws_strip (s : str) : split_ws (strip s) = split_ws s.
Proof.
  unfold strip, split_ws.
  assert (∀ t, split_ws_from [] (lstrip t) = split_ws_from [] t) as Hl.
  { induction t as [|c t IH]; simpl; [done|].
    destruct (isspace c) eqn:Hc; [done|]. simpl. by rewrite Hc. }
  rewrite <- (Hl s).
  destruct (lstrip_decompose (rev (lstrip s))) as (sp & Hs & Hsp).
  apply (f_equal (@rev ascii)) in Hs.
  rewrite rev_involutive, rev_app_distr in Hs. fold (rstrip (lstrip s)) in Hs.
  rewrite Hs at 2. symmetry. apply split_ws_from_trailing.
  rewrite Forall_forall in Hsp |- *. intros c Hc. apply Hsp.
  exact (proj1 (elem_of_rev _ _) Hc).
Qed.

Lemma split_ws_from_last (cur w : str) :
  Forall (λ c, isspace c = false) w → w ≠ [] ∨ cur ≠ [] →
  split_ws_from cur w = [rev cur ++ w].
Proof.
  intros Hw. revert cur. induction Hw as [|c w Hc _ IH]; intros cur Hne; simpl.
  - destruct Hne as [|Hne]; [done|]. rewrite app_nil_r. by destruct cur.
  - rewrite Hc, IH by (by right). simpl. by rewrite <- app_assoc.
Qed.

Lemma split_ws_from_sep (cur w rest : str) :
  Forall (λ c, isspace c = false) w → w ≠ [] ∨ cur ≠ [] →
  split_ws_from cur (w ++ " "%char :: rest)
  = (rev cur ++ w) :: split_ws_from [] rest.
Proof.
  intros Hw. revert cur. induction Hw as [|c w Hc _ IH]; intros cur Hne.
  - destruct Hne as [|Hne]; [done|]. rewrite app_nil_r.
    destruct cur; [done|]. reflexivity.
  - change ((c :: w) ++ " "%char :: rest) with (c :: (w ++ " "%char :: rest)).
    cbn [split_ws_from]. rewrite Hc, IH by (by right).
    simpl. by rewrite <- app_assoc.
Qed.

(** Splitting the words joined by single spaces gives the words back. *)
Lemma split_ws_join (words : list str) :
  Forall word words → split_ws (join (py " ") words) = words.
Proof.
  unfold split_ws. induction 1 as [|w words [Hne Hw] Hws IH]; [done|].
  destruct words as [|w' words].
  - simpl. by rewrite (split_ws_from_last [] w Hw) by (by left).
  - change (join (py " ") (w :: w' :: words))
      with (w ++ " "%char :: join (py " ") (w' :: words)).
    rewrite (split_ws_from_sep [] w _ Hw) by (by left). by rewrite IH.
Qed.

Lemma split_ws_from_words (cur s : str) :
  Forall (λ c, isspace c = false) cur →
  Forall word (split_ws_from cur s).
Proof.
  revert cur. induction s as [|c s IH]; intros cur Hcur; simpl.
  - destruct cur as [|x cur]; simpl; [done|].
    constructor; [|done]. split.
    + intros E. apply (f_equal (@length ascii)) in E.
      rewrite length_app, length_rev in E. simpl in E. lia.
    + change (rev cur ++ [x]) with (rev (x :: cur)).
      rewrite Forall_forall in Hcur |- *. intros y Hy. apply Hcur.
      exact (proj1 (elem_of_rev _ _) Hy).
  - destruct (isspace c) eqn:Hc; [|apply IH; by constructor].
    destruct cur as [|x cur]; simpl; [by apply IH|].
    constructor; [|by apply IH]. split.
    + intros E. apply (f_equal (@length ascii)) in E.
      rewrite length_app, length_rev in E. simpl in E. lia.
    + change (rev cur ++ [x]) with (rev (x :: cur)).
      rewrite Forall_forall in Hcur |- *. intros y Hy. apply Hcur.
      exact (proj1 (elem_of_rev _ _) Hy).
Qed.

(** What [split] returns are words. *)
Lemma split_ws_words (s : str) : Forall word (split_ws s).
Proof. by apply split_ws_from_words. Qed.

Lemma split_ws_from_chars (P : ascii → Prop) (cur s : str) :
  Forall P cur → Forall P s → Forall (Forall P) (split_ws_from cur s).
Proof.
  intros Hcur Hs. revert cur Hcur.
  induction Hs as [|c s Hc _ IH]; intros cur Hcur; simpl.
  - destruct (falsy cur); [done|]. constructor; [|done].
    rewrite Forall_forall in Hcur |- *. intros y Hy. apply Hcur.
    exact (proj1 (elem_of_rev _ _) Hy).
  - destruct (isspace c); [|apply IH; by constructor].
    destruct (falsy cur); [by apply IH|].
    constructor; [|by apply IH].
    rewrite Forall_forall in Hcur |- *. intros y Hy. apply Hcur.
    exact (proj1 (elem_of_rev _ _) Hy).
Qed.

Lemma join_chars (P : ascii → Prop) (sep : str) (words : list str) :
  Forall P sep → Forall (Forall P) words → Forall P (join sep words).
Proof.
  intros Hsep. induction 1 as [|w words Hw Hws IH]; [done|].
  destruct words as [|w' words]; [done|].
  change (join sep (w :: w' :: words)) with (w ++ sep ++ join sep (w' :: words)).
  rewrite !Forall_app. by split_and!.
Qed.

(** [_normalize_lyric] without the redundant [strip]. *)
Lemma normalize_eq (s : str) :
  _normalize_lyric s
  = join (py " ")
      (split_ws (lower (translate_delete deleted_punctuation s))).
Proof.
  unfold _normalize_lyric. destruct s as [|c s]; [done|].
  cbn [falsy]. by rewrite split_ws_strip.
Qed.

(** A normal form is made of normal characters. *)
Lemma normalize_chars (s : str) : Forall normal_char (_normalize_lyric s).
Proof.
  rewrite normalize_eq. apply join_chars.
  - repeat constructor. apply space_normal.
  - apply split_ws_from_chars; [done | apply lowered_text_normal].
Qed.

Lemma normalize_fixed (s : str) :
  _normalize_lyric (_normalize_lyric s) = _normalize_lyric s.
Proof.
  rewrite (normalize_eq (_normalize_lyric s)).
  rewrite normal_text_fixed by apply normalize_chars.
  rewrite normalize_eq at 1. rewrite split_ws_join by apply split_ws_words.
  by rewrite <- normalize_eq.
Qed.

(** X8: Normalizing a normal form changes nothing, so a line is looked up just
    as well by its normal form as by itself. *)
Theorem normalize_idempotent (s : str) :
  _normalize_lyric (_normalize_lyric s) = _normalize_lyric s
  ∧ ∀ st t, find_analysis_by_lyric st t (_normalize_lyric s)
            = find_analysis_by_lyric st t s.
Proof.
  split; [apply normalize_fixed|].
  intros st t. apply find_by_normal_form, normalize_fixed.
Qed.

(** X9: The shape of a normal form: words joined by single spaces, each word
    not empty, without spaces, and made of characters that are neither
    deleted punctuation nor changed by [lower]. *)
Theorem normal_form_shape (s : str) :
  ∃ words,
    _normalize_lyric s = join (py " ") words
    ∧ Forall word words
    ∧ Forall (Forall normal_char) words.
Proof.
  exists (split_ws (lower (translate_delete deleted_punctuation s))).
  split_and!.
  - apply normalize_eq.
  - apply split_ws_words.
  - apply split_ws_from_chars; [done | apply lowered_text_normal].
Qed.

(** The tables of a reachable store hold non-empty normal forms and
    non-empty sentences. *)
Lemma reachable_tables (st : SongAnalysisStorage) (t k v : str)
    (table : gmap str str) :
  reachable st →
  song_data st !! t = Some table → table !! k = Some v →
  k ≠ [] ∧ v ≠ [] ∧ _normalize_lyric k = k.
Proof.
  intros Hr. revert t k v table.
  induction Hr as [|st u Hr IH|st d Hr IH]; intros t k v table.
  - unfold Storage.__init__. simpl. by rewrite lookup_empty.
  - unfold start_new_song. destruct (falsy u); [apply IH|]. simpl.
    destruct (decide (u = t)) as [->|Hne].
    + rewrite lookup_insert_eq. intros [= <-]. by rewrite lookup_empty.
    + rewrite lookup_insert_ne by done. apply IH.
  - destruct (add_line_cases st d)
      as [->|(c & L & S & -> & Hcur & HL & HS & HN)]; [apply IH|].
    rewrite (add_line_effective st c L S) by done. simpl.
    destruct (decide (c = t)) as [->|Hne];
      [|rewrite lookup_insert_ne by done; apply IH].
    rewrite lookup_insert_eq. intros [= <-].
    destruct (decide (_normalize_lyric L = k)) as [<-|Hk].
    + rewrite lookup_insert_eq. intros [= <-].
      split_and!; [done | done | apply normalize_fixed].
    + rewrite lookup_insert_ne by done.
      destruct (song_data st !! t) as [old|] eqn:Hold; simpl.
      * by apply (IH t k v old).
      * by rewrite lookup_empty.
Qed.


(** Only non-empty titles have a table in a reachable store. *)
Lemma reachable_titles (st : SongAnalysisStorage) (t : str) :
  reachable st → is_Some (song_data st !! t) → t ≠ [].
Proof.
  intros Hr. revert t.
  induction Hr as [|st u Hr IH|st d Hr IH]; intros t.
  - unfold Storage.__init__. simpl. rewrite lookup_empty. by intros [? ?].
  - unfold start_new_song. destruct (falsy u) eqn:Hu; [apply IH|]. simpl.
    destruct (decide (u = t)) as [<-|Hne]; [intros _; by apply falsy_false|].
    rewrite lookup_insert_ne by done. apply IH.
  - destruct (add_line_cases st d)
      as [->|(c & L & S & -> & Hcur & HL & HS & HN)]; [apply IH|].
    rewrite (add_line_effective st c L S) by done. simpl.
    destruct (decide (c = t)) as [<-|Hne];
      [|rewrite lookup_insert_ne by done; apply IH].
    intros _. by apply (reachable_current_nonempty st c).
Qed.

(** X10: In every reachable store, every entry of every table has a key that is
    a non-empty normal form and a non-empty sentence, and looking up the
    key under the song of the table finds the sentence: no entry is out of
    reach. *)
Theorem stored_entries_normal (st : SongAnalysisStorage) (t k v : str)
    (table : gmap str str) :
  reachable st →
  get_analysis_dict_for_song st t = Some table → table !! k = Some v →
  k ≠ [] ∧ v ≠ [] ∧ _normalize_lyric k = k
  ∧ find_analysis_by_lyric st t k = Some v.
Proof.
  unfold get_analysis_dict_for_song. intros Hr Ht Hk.
  destruct (reachable_tables st t k v table Hr Ht Hk) as (Hkne & Hvne & Hfix).
  split_and!; try done.
  assert (t ≠ []) as Htne by (apply (reachable_titles st t Hr); by rewrite Ht).
  unfold find_analysis_by_lyric. rewrite Hfix, Ht.
  apply falsy_false in Hkne, Htne. rewrite Hkne, Htne. simpl.
  destruct (decide (table = ∅)) as [->|_]; [by rewrite lookup_empty in Hk|].
  done.
Qed.

Lemma stored_entries_normal_witness :
  py "hi" ≠ [] ∧ py "s" ≠ [] ∧ _normalize_lyric (py "hi") = py "hi"
  ∧ find_analysis_by_lyric
      (add_analysis_line (start_new_song Storage.__init__ (py "A"))
         (line (py "Hi!") (py "s")))
      (py "A") (py "hi") = Some (py "s").
Proof.
  apply (stored_entries_normal
           (add_analysis_line (start_new_song Storage.__init__ (py "A"))
              (line (py "Hi!") (py "s")))
           (py "A") (py "hi") (py "s") {[ py "hi" := py "s" ]}).
  - apply reach_add, reach_start, reach_init.
  - vm_compute. reflexivity.
  - vm_compute. reflexivity.
Defined.

End NormalForms.

(** ** More on the image searcher *)

Section SearchOrder.

Import Searcher.

Context {F : Type} `{FloatOps F} {ties : TieOrder F}.

Lemma indexed_indices (similarities : list F) :
  map fst (indexed similarities) = seq 0 (length similarities).
Proof.
  unfold indexed. generalize 0.
  induction similarities as [|x l IH]; intros start; simpl; [done|].
  by rewrite IH.
Qed.

(** [np.argsort] returns every index once. *)
Lemma argsort_perm (similarities : list F) :
  argsort similarities ≡ₚ seq 0 (length similarities).
Proof.
  unfold argsort. rewrite <- indexed_indices.
  apply Permutation_map, sorted_entries_perm.
Qed.

(** The sorted entries are the ones left out, then the ones walked through
    in reverse. *)
Lemma sorted_split (similarities : list F) (top_k : Z) :
  ∃ left_out,
    sorted_entries similarities
    = left_out ++ rev (top_entries similarities top_k).
Proof.
  unfold top_entries, slice_from. rewrite rev_involutive.
  eexists. symmetry. apply take_drop.
Qed.

Lemma top_k_indices_elem (similarities : list F) (top_k : Z) (i : nat) :
  i ∈ top_k_indices similarities top_k ↔
  ∃ v, (i, v) ∈ top_entries similarities top_k.
Proof.
  rewrite top_k_indices_entries. rewrite list_elem_of_In, in_map_iff. split.
  - intros ([j v] & Hj & Hin). simpl in Hj; subst j.
    exists v. by apply list_elem_of_In.
  - intros [v Hin]. exists (i, v). split; [done | by apply list_elem_of_In].
Qed.

Lemma top_k_indices_bound (similarities : list F) (top_k : Z) (i : nat) :
  i ∈ top_k_indices similarities top_k → i < length similarities.
Proof.
  unfold top_k_indices.
  intros Hi%list_elem_of_In%in_rev%list_elem_of_In.
  unfold slice_from in Hi. apply subseteq_drop in Hi.
  rewrite (argsort_perm similarities) in Hi.
  apply list_elem_of_In, in_seq in Hi. lia.
Qed.

(** X11: The indices walked through are distinct indices of the index, and all
    of them when [top_k] is at least their number. *)
Theorem top_k_indices_distinct (similarities : list F) (top_k : Z) :
  NoDup (top_k_indices similarities top_k)
  ∧ (∀ i, i ∈ top_k_indices similarities top_k → i < length similarities)
  ∧ ((Z.of_nat (length similarities) ≤ top_k)%Z →
     top_k_indices similarities top_k ≡ₚ seq 0 (length similarities)).
Proof.
  unfold top_k_indices.
  pose proof (argsort_perm similarities) as Hperm.
  split_and!.
  - apply NoDup_ListNoDup, NoDup_rev, NoDup_ListNoDup.
    unfold slice_from. eapply sublist_NoDup; [|apply sublist_drop].
    rewrite Hperm. apply NoDup_seq.
  - intros i Hi. eapply top_k_indices_bound, Hi.
  - intros Hk. rewrite <- Hperm, <- Permutation_rev.
    unfold slice_from. rewrite argsort_length.
    destruct (- top_k <? 0)%Z eqn:Hneg.
    + by replace (Z.to_nat _) with 0 by lia.
    + apply Z.ltb_ge in Hneg. by replace (Z.to_nat _) with 0 by lia.
Qed.

(** X12: Whatever [top_k] is, no image left out of the indices walked through
    scores above one that is in them. *)
Theorem left_out_never_scores_higher `{!ScoreOrder F} (similarities : list F)
    (top_k : Z) (i j : nat) (v w : F) :
  i ∈ top_k_indices similarities top_k →
  j ∉ top_k_indices similarities top_k →
  similarities !! i = Some v → similarities !! j = Some w →
  flt v w = false.
Proof.
  intros [v' Hi]%top_k_indices_elem Hj Hv Hw.
  rewrite (top_entries_lookup _ _ _ _ Hi) in Hv. injection Hv as ->.
  destruct (sorted_split similarities top_k) as [left_out Hsplit].
  pose proof (sorted_indexed similarities) as Hsorted.
  rewrite Hsplit in Hsorted.
  assert ((j, w) ∈ left_out) as Hleft.
  { pose proof (indexed_elem _ _ _ Hw) as Hin.
    rewrite <- (sorted_entries_perm similarities), Hsplit in Hin.
    apply elem_of_app in Hin as [Hin|Hin]; [done|].
    exfalso. apply Hj, top_k_indices_elem. exists w.
    exact (proj1 (elem_of_rev _ _) Hin). }
  apply (proj2 (elem_of_rev _ (top_entries similarities top_k))) in Hi.
  by destruct (StronglySorted_app_1_elem_of _ _ _ _ _ Hsorted Hleft Hi).
Qed.

(** The first index walked through, if any, has a score that no score of
    the index is above. *)
Lemma top_entry_is_maximum `{!ScoreOrder F} (similarities : list F)
    (top_k : Z) (i : nat) (v : F) (rest : list (nat * F)) (w : F) :
  top_entries similarities top_k = (i, v) :: rest →
  w ∈ similarities → flt v w = false.
Proof.
  intros Htop [j Hj]%list_elem_of_lookup.
  destruct (sorted_split similarities top_k) as [left_out Hsplit].
  pose proof (sorted_indexed similarities) as Hsorted.
  rewrite Htop in Hsplit. simpl in Hsplit.
  rewrite app_assoc in Hsplit. rewrite Hsplit in Hsorted.
  pose proof (indexed_elem _ _ _ Hj) as Hin.
  rewrite <- (sorted_entries_perm similarities), Hsplit in Hin.
  apply elem_of_app in Hin as [Hin|Hin%list_elem_of_singleton].
  - assert ((i, v) ∈ [(i, v)]) as Hlast by left.
    by destruct (StronglySorted_app_1_elem_of _ _ _ _ _ Hsorted Hin Hlast).
  - injection Hin as -> ->.
    destruct (flt v v) eqn:Hvv; [|done]. by rewrite (flt_asym _ _ Hvv) in Hvv.
Qed.

Lemma collect_cons (paths : list str) (similarities : list F)
    (i : nat) (indices : list nat) (p : str) (v : F) :
  paths !! i = Some p → similarities !! i = Some v →
  collect paths similarities (i :: indices)
  = (p, v) :: collect paths similarities indices.
Proof. intros Hp Hv. unfold collect. simpl. by rewrite Hp, Hv. Qed.

(** When every index has a path, the result loop keeps every index. *)
Lemma collect_length_all (paths : list str) (similarities : list F)
    (indices : list nat) :
  (∀ i, i ∈ indices → i < length paths ∧ i < length similarities) →
  length (collect paths similarities indices) = length indices.
Proof.
  intros Hvalid. induction indices as [|i indices IH]; [done|].
  destruct (Hvalid i) as [[p Hp]%lookup_lt_is_Some [v Hv]%lookup_lt_is_Some];
    [by left|].
  rewrite (collect_cons _ _ _ _ p v Hp Hv). simpl. f_equal.
  apply IH. intros j Hj. apply Hvalid. by right.
Qed.

(** What a search that answers has computed. *)
Lemma search_Some (s : ImageSearcher F) (query : list F) (top_k : Z)
    (results : list (str * F)) :
  search s (Some query) top_k = Some results →
  ∃ images paths similarities,
    normalized_image_embeddings s = Some images
    ∧ image_paths s = Some paths
    ∧ similarities_of query images = Some similarities
    ∧ similarities = map (dot (normalize_row query)) (rows images)
    ∧ results = collect paths similarities (top_k_indices similarities top_k).
Proof.
  unfold search.
  destruct (normalized_image_embeddings s) as [images|]; [|done].
  destruct (image_paths s) as [paths|]; [|done].
  destruct (similarities_of query images) as [similarities|] eqn:Hsim; [|done].
  intros [= <-]. exists images, paths, similarities. split_and!; try done.
  unfold similarities_of in Hsim.
  destruct (length query =? ncols images); [|done]. by injection Hsim as <-.
Qed.

(** X13: Every pair a search returns is the path and the score of one and the
    same image: some index [i] holds that path in [image_paths] and that
    embedding in the normalized array, and the score is the dot product of
    the normalized query with it. *)
Theorem search_results_belong_to_index (s : ImageSearcher F) (query : list F)
    (top_k : Z) (results : list (str * F)) (path : str) (score : F) :
  search s (Some query) top_k = Some results →
  (path, score) ∈ results →
  ∃ images paths i row,
    normalized_image_embeddings s = Some images
    ∧ image_paths s = Some paths
    ∧ paths !! i = Some path
    ∧ rows images !! i = Some row
    ∧ score = dot (normalize_row query) row.
Proof.
  intros (images & paths & sims & Himg & Hpaths & _ & -> & ->)%search_Some
         (i & _ & Hp & Hv)%collect_elem.
  change (map ?f ?l) with (f <$> l) in Hv.
  rewrite list_lookup_fmap in Hv.
  destruct (rows images !! i) as [row|] eqn:Hrow; [|done].
  injection Hv as <-. by exists images, paths, i, row.
Qed.

(** With a path for every score and [top_k] at least 1, the result loop
    returns [min top_k N] pairs. *)
Lemma collect_top_length (paths : list str) (similarities : list F)
    (top_k : Z) :
  length similarities ≤ length paths →
  (1 ≤ top_k)%Z →
  length (collect paths similarities (top_k_indices similarities top_k))
  = Z.to_nat top_k `min` length similarities.
Proof.
  intros Hlen Hk. rewrite collect_length_all.
  2: { intros i Hi%top_k_indices_bound. lia. }
  unfold top_k_indices. rewrite length_rev.
  unfold slice_from. rewrite length_drop, argsort_length.
  destruct (- top_k <? 0)%Z eqn:Hneg; [|apply Z.ltb_ge in Hneg; lia]. lia.
Qed.

(** With a path for every score, the first pair of the result loop has a
    path of the index and a score that no score is above. *)
Lemma collect_top_head `{!ScoreOrder F} (paths : list str)
    (similarities : list F) (top_k : Z) (best : str * F)
    (others : list (str * F)) :
  collect paths similarities (top_k_indices similarities top_k)
  = best :: others →
  fst best ∈ paths
  ∧ (length similarities ≤ length paths →
     ∀ w, w ∈ similarities → flt (snd best) w = false).
Proof.
  intros Hres. split.
  - assert (best ∈ collect paths similarities
                     (top_k_indices similarities top_k)) as Hin
      by (rewrite Hres; by left).
    destruct best as [p v].
    apply collect_elem in Hin as (i & _ & Hp & _).
    by apply list_elem_of_lookup_2 in Hp.
  - intros Hlen w Hw.
    rewrite top_k_indices_entries in Hres.
    destruct (top_entries similarities top_k) as [|[i v] rest] eqn:Htop;
      [done|].
    assert ((i, v) ∈ top_entries similarities top_k) as Hin
      by (rewrite Htop; by left).
    pose proof (top_entries_lookup _ _ _ _ Hin) as Hv.
    destruct (lookup_lt_is_Some_2 paths i) as [p Hp].
    { apply lookup_lt_Some in Hv. lia. }
    change (map fst ((i, v) :: rest)) with (i :: map fst rest) in Hres.
    rewrite (collect_cons _ _ _ _ p v Hp Hv) in Hres.
    injection Hres as <- _. simpl.
    by eapply top_entry_is_maximum.
Qed.

(** X14: With a path for every embedding and [top_k] at least 1, a search that
    answers returns exactly [min top_k N] pairs: one pair for the usual
    [top_k = 1] on a non-empty index. *)
Theorem search_result_count (s : ImageSearcher F) (query : list F)
    (top_k : Z) (results : list (str * F))
    (images : ndarray2 F) (paths : list str) :
  normalized_image_embeddings s = Some images →
  image_paths s = Some paths →
  length (rows images) ≤ length paths →
  (1 ≤ top_k)%Z →
  search s (Some query) top_k = Some results →
  length results = Z.to_nat top_k `min` length (rows images).
Proof.
  intros Himg Hpaths Hlen Hk
    (images' & paths' & sims & Himg' & Hpaths' & _ & Hsims & ->)%search_Some.
  rewrite Himg in Himg'. injection Himg' as <-.
  rewrite Hpaths in Hpaths'. injection Hpaths' as <-.
  assert (length sims = length (rows images)) as Hn
    by (by rewrite Hsims, length_map).
  rewrite collect_top_length by lia. by rewrite Hn.
Qed.

(** X15: With a path for every embedding, the first pair a search returns has a
    score that no image of the index scores above. *)
Theorem search_best_first `{!ScoreOrder F} (s : ImageSearcher F)
    (query : list F) (top_k : Z) (best : str * F) (others : list (str * F))
    (images : ndarray2 F) (paths : list str) (row : list F) :
  normalized_image_embeddings s = Some images →
  image_paths s = Some paths →
  length (rows images) ≤ length paths →
  search s (Some query) top_k = Some (best :: others) →
  row ∈ rows images →
  flt (snd best) (dot (normalize_row query) row) = false.
Proof.
  intros Himg Hpaths Hlen
    (images' & paths' & sims & Himg' & Hpaths' & _ & Hsims & Hres)%search_Some
    Hrow.
  rewrite Himg in Himg'. injection Himg' as <-.
  rewrite Hpaths in Hpaths'. injection Hpaths' as <-.
  symmetry in Hres. apply collect_top_head in Hres as [_ Hmax].
  apply Hmax.
  - by rewrite Hsims, length_map.
  - rewrite Hsims. apply list_elem_of_In, in_map, list_elem_of_In, Hrow.
Qed.

End SearchOrder.

Section SearchOrderExamples.

Import Searcher Samples.

(** No sample of this section has two equal scores; [np.argsort] is run
    with equal scores in index order. *)
#[local] Existing Instance index_order.

Lemma top_k_indices_distinct_witness :
  (Z.of_nat (length [0.5; 0.25; 0.75]%float) ≤ 5)%Z
  ∧ top_k_indices [0.5; 0.25; 0.75]%float 5 ≡ₚ seq 0 3.
Proof.
  split; [simpl; lia|].
  apply (top_k_indices_distinct [0.5; 0.25; 0.75]%float 5). simpl. lia.
Defined.

Lemma left_out_never_scores_higher_witness :
  top_k_indices [0.5; 0.25; 0.75]%float 2 = [2; 0]
  ∧ flt 0.5%float 0.25%float = false.
Proof.
  split; [vm_compute; reflexivity|].
  apply (left_out_never_scores_higher [0.5; 0.25; 0.75]%float 2 0 1).
  - vm_compute. right. left.
  - vm_compute. intros Hin.
    repeat (apply elem_of_cons in Hin as [Hin|Hin]; [done|]).
    by apply elem_of_nil in Hin.
  - reflexivity.
  - reflexivity.
Defined.

Lemma search_results_belong_to_index_witness :
  ∃ score images paths i row,
    search two_searcher (Some [1; 0]%float) 1 = Some [(py "a.jpg", score)]
    ∧ normalized_image_embeddings two_searcher = Some images
    ∧ image_paths two_searcher = Some paths
    ∧ paths !! i = Some (py "a.jpg")
    ∧ rows images !! i = Some row
    ∧ score = dot (normalize_row [1; 0]%float) row.
Proof.
  assert (∃ score, search two_searcher (Some [1; 0]%float) 1
                   = Some [(py "a.jpg", score)]) as [score Hsearch]
    by (eexists; vm_compute; reflexivity).
  destruct (search_results_belong_to_index two_searcher [1; 0]%float 1
              [(py "a.jpg", score)] (py "a.jpg") score Hsearch)
    as (images & paths & i & row & H1 & H2 & H3 & H4 & H5); [left|].
  by exists score, images, paths, i, row.
Defined.

Lemma search_result_count_witness :
  ∃ results,
    search two_searcher (Some [1; 0]%float) 1 = Some results
    ∧ length results = 1.
Proof.
  eexists. split; [vm_compute; reflexivity|].
  apply (search_result_count two_searcher [1; 0]%float 1 _
           (_normalize_embeddings two_images) two_paths);
    [reflexivity | reflexivity | simpl; lia | lia | vm_compute; reflexivity].
Defined.

Lemma search_best_first_witness :
  ∃ best,
    search two_searcher (Some [0; 1]%float) 1 = Some [best]
    ∧ fst best = py "b.jpg"
    ∧ flt (snd best)
        (dot (normalize_row [0; 1]%float)
             (normalize_row [1; 0]%float)) = false.
Proof.
  eexists. split; [vm_compute; reflexivity|]. split; [reflexivity|].
  apply (search_best_first two_searcher [0; 1]%float 1 _ []
           (_normalize_embeddings two_images) two_paths);
    [reflexivity | reflexivity | simpl; lia | vm_compute; reflexivity |].
  simpl. left.
Defined.

End SearchOrderExamples.

(** ** More on the retry loop *)

Section RetrySchedule.

Import Storage LLM Samples.

Lemma random_byte_range (b : Byte.byte) : (Z.of_N (Byte.to_N b) <= 255)%Z.
Proof. pose proof (Byte.to_N_bounded b). lia. Qed.

(** Doubling with jitter takes the range of one attempt to the range of
    the next one; the cap of 16 seconds is not reached before the loop
    ends. *)
Lemma next_delay_schedule (a : nat) (d : Q) (b : Byte.byte) :
  a < 2 →
  (least_delay a <= d)%Q ∧ (d <= greatest_delay a)%Q →
  (least_delay (S a) <= next_delay d b)%Q
  ∧ (next_delay d b <= greatest_delay (S a))%Q.
Proof.
  intros Ha [Hlo Hhi]. unfold next_delay.
  pose proof (random_byte_range b) as Hb.
  pose proof (N2Z.is_nonneg (Byte.to_N b)) as Hb0.
  set (n := Z.of_N (Byte.to_N b)) in *. clearbody n.
  destruct d as [dn dd].
  assert (a = 0 ∨ a = 1) as [-> | ->] by lia;
    unfold least_delay, greatest_delay, MAX_RETRY_DELAY_SECONDS in *;
    (split; [apply Q.min_glb | eapply Qle_trans; [apply Q.le_min_l|]]);
    unfold Qle, Qplus, Qmult, inject_Z in *; simpl in *; nia.
Qed.

Lemma retry_loop_schedule service urandom remaining a d :
  remaining + a = MAX_RETRIES + 1 →
  (a < MAX_RETRIES → (least_delay a <= d)%Q ∧ (d <= greatest_delay a)%Q) →
  ∀ i r, retry_loop service urandom remaining a d !! i = Some r →
    attempt_no r = a + i
    ∧ ∀ x, slept r = Some x →
        (least_delay (a + i) <= x)%Q ∧ (x <= greatest_delay (a + i))%Q.
Proof.
  revert a d. induction remaining as [|n IH]; intros a d Hn Hd i r; simpl.
  - done.
  - assert (∀ o s, [mk_round a (stored_by (service a)) o s] !! i = Some r →
              s = None →
              attempt_no r = a + i
              ∧ ∀ x, slept r = Some x →
                  (least_delay (a + i) <= x)%Q ∧ (x <= greatest_delay (a + i))%Q)
      as Hsingle.
    { intros o s Hi ->. destruct i as [|i]; [|done].
      injection Hi as <-. simpl. split; [lia | done]. }
    destruct (raised (service a)) as [e|] eqn:He; [|intros Hi; by eapply Hsingle].
    destruct (retriable e) eqn:Hr; [|intros Hi; by eapply Hsingle].
    destruct (a <? MAX_RETRIES) eqn:Hlt.
    + apply Nat.ltb_lt in Hlt. destruct i as [|i]; simpl.
      * intros [= <-]. simpl. rewrite Nat.add_0_r.
        split; [done|]. intros x [= <-]. by apply Hd.
      * intros Hi. replace (a + S i) with (S a + i) by lia.
        apply (IH (S a) (next_delay d (urandom a))); [lia| |done].
        intros Ha. apply next_delay_schedule; [unfold MAX_RETRIES in *; lia|].
        by apply Hd.
    + apply Nat.ltb_ge in Hlt. assert (n = 0) as -> by lia. simpl.
      intros Hi; by eapply Hsingle.
Qed.

(** X16: The backoff schedule: round number [i] is attempt number [i], and the
    sleep after it, if any, lasts between [2^(i+1)] and [3 * 2^i - 1]
    seconds, that is 2, then 4 to 5, then 8 to 11: each sleep is at least
    twice the one before, and the cap of 16 seconds is never reached. *)
Theorem backoff_schedule (client_ready : bool)
    (service : nat → attempt_run) (urandom : nat → Byte.byte)
    (i : nat) (r : round) :
  _perform_analysis_thread client_ready service urandom !! i = Some r →
  attempt_no r = i
  ∧ ∀ x, slept r = Some x →
         (inject_Z (2 ^ Z.of_nat (S i)) <= x)%Q
         ∧ (x <= inject_Z (3 * 2 ^ Z.of_nat i - 1))%Q
         ∧ (x < MAX_RETRY_DELAY_SECONDS)%Q.
Proof.
  unfold _perform_analysis_thread. destruct client_ready; [|done].
  intros Hi.
  pose proof (lookup_lt_Some _ _ _ Hi) as Hlen.
  pose proof (retry_loop_length service urandom (MAX_RETRIES + 1) 0
                INITIAL_RETRY_DELAY_SECONDS) as Hmax.
  destruct (retry_loop_schedule service urandom (MAX_RETRIES + 1) 0
              INITIAL_RETRY_DELAY_SECONDS eq_refl) with (i := i) (r := r)
    as [Hno Hsleep]; [|done|].
  { intros _. split; unfold Qle; simpl; lia. }
  split; [done|]. intros x Hx.
  destruct (Hsleep x Hx) as [Hlo Hhi]. simpl in Hlo, Hhi.
  split_and!; [done | done |].
  assert (i ≤ 3) as Hi3 by (unfold MAX_RETRIES in *; simpl in *; lia).
  assert (i ≠ 3) as Hne.
  { intros ->. clear Hlo Hhi Hsleep.
    assert (∃ r', retry_loop service urandom (MAX_RETRIES + 1) 0
              INITIAL_RETRY_DELAY_SECONDS !! 3 = Some r' ∧ slept r' = None)
      as (r' & Hr' & Hs'); [|congruence].
    pose proof (retry_loop_chain service urandom (MAX_RETRIES + 1) 0
                  INITIAL_RETRY_DELAY_SECONDS eq_refl initial_delay_bounded)
      as Hchain.
    exists r. split; [done|].
    eapply retry_chain_last; [done | done |]. simpl in *. lia. }
  eapply Qle_lt_trans; [exact Hhi|].
  assert (i = 0 ∨ i = 1 ∨ i = 2) as [-> | [-> | ->]] by lia;
    unfold Qlt; simpl; lia.
Qed.

Lemma backoff_schedule_witness :
  ∃ r x,
    _perform_analysis_thread true flaky_service (λ _, Byte.xff) !! 1 = Some r
    ∧ attempt_no r = 1
    ∧ slept r = Some x
    ∧ (4 <= x)%Q ∧ (x <= 5)%Q.
Proof.
  eexists _, _. split; [reflexivity|].
  destruct (backoff_schedule true flaky_service (λ _, Byte.xff) 1 _ eq_refl)
    as [Hno Hsleep].
  split; [exact Hno|]. split; [reflexivity|].
  destruct (Hsleep _ eq_refl) as (Hlo & Hhi & _).
  split; [exact Hlo | exact Hhi].
Defined.

(** X17: Giving up: when every attempt fails with a retriable error, the thread
    makes exactly [MAX_RETRIES + 1] attempts, sleeps after each but the
    last, and stops. *)
Theorem retries_exhausted (service : nat → attempt_run)
    (urandom : nat → Byte.byte) :
  (∀ n, n ≤ MAX_RETRIES →
     ∃ e, raised (service n) = Some e ∧ retriable e = true) →
  let rounds := _perform_analysis_thread true service urandom in
  map attempt_no rounds = seq 0 (MAX_RETRIES + 1)
  ∧ map raised (map service (seq 0 (MAX_RETRIES + 1))) = map outcome rounds
  ∧ length (omap slept rounds) = MAX_RETRIES.
Proof.
  intros Hfail.
  destruct (Hfail 0) as (e0 & H0 & R0); [unfold MAX_RETRIES; lia|].
  destruct (Hfail 1) as (e1 & H1 & R1); [unfold MAX_RETRIES; lia|].
  destruct (Hfail 2) as (e2 & H2 & R2); [unfold MAX_RETRIES; lia|].
  destruct (Hfail 3) as (e3 & H3 & R3); [unfold MAX_RETRIES; lia|].
  unfold _perform_analysis_thread. simpl.
  rewrite H0, R0, H1, R1, H2, R2, H3, R3. done.
Qed.

Lemma retries_exhausted_witness :
  length (_perform_analysis_thread true
            (λ _, {| delivered := []; raised := Some DeadlineExceeded |})
            (λ _, Byte.x00)) = 4.
Proof.
  pose proof (retries_exhausted
    (λ _, {| delivered := []; raised := Some DeadlineExceeded |})
    (λ _, Byte.x00)) as Hex.
  destruct Hex as (Hno & _ & _).
  - intros n _. by exists DeadlineExceeded.
  - apply (f_equal (@length nat)) in Hno.
    by rewrite length_map in Hno.
Defined.

End RetrySchedule.

(** ** More on the streaming parser *)

Section ParserRoundTrip.

Import Storage LLM Samples.

Lemma clean_rstrip (s : str) : clean s → rstrip s = s.
Proof. intros (_ & Hs & _). by apply stripped_both. Qed.

(** A line ["PREFIX: value"] with a clean value is stripped already, and
    stripping what follows the prefix gives the value back. *)
Lemma prefixed_line (prefix v : str) :
  prefix ≠ [] → lstrip prefix = prefix → clean v →
  strip (prefix ++ py " " ++ v) = prefix ++ py " " ++ v
  ∧ strip (drop (length prefix) (prefix ++ py " " ++ v)) = v.
Proof.
  intros Hp Hl Hv. split.
  - rewrite app_assoc. apply strip_app_stripped.
    + by destruct prefix.
    + by destruct Hv.
    + rewrite lstrip_app_nonempty by (by rewrite Hl). by rewrite Hl.
    + by apply clean_rstrip.
  - rewrite drop_app_length.
    destruct Hv as (Hne & Hs & _).
    rewrite <- (app_nil_r v) at 1.
    apply strip_spaces_around; try done. by repeat constructor.
Qed.

Lemma parse_line_lyric (result : analysis_data) (L : str) :
  clean L →
  parse_line result (LYRIC_PREFIX ++ py " " ++ L)
  = {| lyric := Some L; sentence := sentence result |}.
Proof.
  intros HL. unfold parse_line.
  destruct (prefixed_line LYRIC_PREFIX L) as [-> Hvalue]; try done.
  by rewrite startswith_prefix, Hvalue.
Qed.

Lemma parse_line_sentence (result : analysis_data) (S : str) :
  clean S →
  parse_line result (SENTENCE_PREFIX ++ py " " ++ S)
  = {| lyric := lyric result; sentence := Some S |}.
Proof.
  intros HS. unfold parse_line.
  destruct (prefixed_line SENTENCE_PREFIX S) as [-> Hvalue]; try done.
  assert (startswith LYRIC_PREFIX (SENTENCE_PREFIX ++ py " " ++ S) = false)
    as -> by done.
  by rewrite startswith_prefix, Hvalue.
Qed.

Lemma record_text_stripped (L S : str) :
  clean L → clean S → strip (record_text L S) = record_text L S.
Proof.
  intros HL HS. unfold record_text.
  change (?a ++ newline :: ?b) with (a ++ [newline] ++ b).
  rewrite !app_assoc. apply strip_app_stripped.
  - by destruct HS as (_ & _ & _); destruct L.
  - by destruct HS.
  - done.
  - by apply clean_rstrip.
Qed.

(** The section of a record parses to the record. *)
Lemma parse_record_text (L S : str) :
  clean L → clean S →
  parse_section (record_text L S) = Some (line L S).
Proof.
  intros HL HS. unfold parse_section.
  rewrite record_text_stripped by done.
  assert (falsy (record_text L S) = false) as -> by done.
  unfold record_text.
  rewrite split_char_cons.
  2: { destruct HL as (_ & _ & HL). intros Hin.
       apply elem_of_app in Hin as [Hin|Hin];
         [|apply elem_of_app in Hin as [Hin|Hin]]; try done;
         vm_compute in Hin;
         repeat (apply elem_of_cons in Hin as [Hin|Hin]; [done|]);
         by apply elem_of_nil in Hin. }
  rewrite split_char_one.
  2: { destruct HS as (_ & _ & HS). intros Hin.
       apply elem_of_app in Hin as [Hin|Hin];
         [|apply elem_of_app in Hin as [Hin|Hin]]; try done;
         vm_compute in Hin;
         repeat (apply elem_of_cons in Hin as [Hin|Hin]; [done|]);
         by apply elem_of_nil in Hin. }
  cbn [foldl]. rewrite parse_line_lyric, parse_line_sentence by done.
  cbn [lyric sentence absent_or_empty].
  destruct HL as (HL & _), HS as (HS & _).
  apply falsy_false in HL, HS. by rewrite HL, HS.
Qed.

Lemma emit_candidate (pre L S : str) :
  Forall (λ c, isspace c = true) pre → clean L → clean S →
  emit_section (strip (pre ++ candidate_text L S)) = [line L S].
Proof.
  intros Hpre HL HS. unfold candidate_text.
  rewrite strip_spaces_around; try done.
  - unfold emit_section.
    assert (falsy (record_text L S) = false) as -> by done.
    by rewrite parse_record_text.
  - by apply record_text_stripped.
  - by repeat constructor.
Qed.

(** No delimiter starts with a space. *)
Lemma contains_end_spaces (pre s : str) :
  Forall (λ c, isspace c = true) pre →
  contains END_MARK s = false → contains END_MARK (pre ++ s) = false.
Proof.
  intros Hpre Hs. induction Hpre as [|c pre Hc _ IH]; [done|].
  change ((c :: pre) ++ s) with (c :: (pre ++ s)).
  cbn [contains]. rewrite IH, orb_false_r.
  cbn [startswith END_MARK py list_ascii_of_string].
  destruct (Ascii.eqb_spec "<" c) as [<-|]; [done|done].
Qed.

(** One block, then the rest of the reply. *)
Lemma process_block (pre rest : str) (r : str * str) :
  Forall (λ c, isspace c = true) pre → well_formed r →
  process_text (pre ++ block r ++ rest)
  = line (fst r) (snd r) :: process_text ([newline] ++ rest).
Proof.
  intros Hpre (HL & HS & Hend). unfold block.
  assert (pre ++ (candidate_text (fst r) (snd r) ++ END_MARK ++ [newline])
                 ++ rest
          = (pre ++ candidate_text (fst r) (snd r)) ++ END_MARK
            ++ ([newline] ++ rest)) as ->
    by (by rewrite <- !app_assoc).
  rewrite (process_text_first _ (pre ++ candidate_text (fst r) (snd r))
             ([newline] ++ rest)).
  - by rewrite emit_candidate.
  - apply split_first_candidate. by apply contains_end_spaces.
Qed.

Lemma process_blocks (pre rest : str) (records : list (str * str)) :
  Forall (λ c, isspace c = true) pre → Forall well_formed records →
  process_text (pre ++ concat (map block records) ++ rest)
  = map (λ r, line (fst r) (snd r)) records
    ++ process_text ((if records is [] then pre else [newline]) ++ rest).
Proof.
  intros Hpre Hrs. revert pre Hpre.
  induction Hrs as [|r records Hr _ IH]; intros pre Hpre; [done|].
  cbn [map concat]. rewrite <- app_assoc, process_block by done.
  rewrite (IH [newline]) by (by repeat constructor).
  cbn [map app]. f_equal. by destruct records.
Qed.

Lemma process_spaces (pre : str) :
  Forall (λ c, isspace c = true) pre → process_text pre = [].
Proof.
  intros Hpre. unfold process_text.
  rewrite drain_no_mark.
  - unfold finish. by rewrite strip_nothing.
  - rewrite <- (app_nil_r pre). by apply contains_end_spaces.
Qed.

(** X18: Round trip: a reply made of the blocks of well-formed records, read in
    chunks cut anywhere, hands exactly these records to the callback, in
    their order. *)
Theorem blocks_round_trip (chunk_stream : list chunk)
    (records : list (str * str)) :
  Forall well_formed records →
  stream_text chunk_stream = concat (map block records) →
  _process_stream chunk_stream = map (λ r, line (fst r) (snd r)) records.
Proof.
  intros Hrs Htext. rewrite process_stream_text, Htext.
  pose proof (process_blocks [] [] records (List.Forall_nil _) Hrs) as Hp.
  rewrite !app_nil_r in Hp. simpl in Hp. rewrite Hp.
  rewrite process_spaces, app_nil_r; [done|].
  destruct records; by repeat constructor.
Qed.

(** X19: A last record whose delimiter never arrived is handed on all the same,
    after the records before it. *)
Theorem unfinished_last_record_kept (chunk_stream : list chunk)
    (records : list (str * str)) (last : str * str) :
  Forall well_formed records → well_formed last →
  stream_text chunk_stream
    = concat (map block records) ++ candidate_text (fst last) (snd last) →
  _process_stream chunk_stream
  = map (λ r, line (fst r) (snd r)) (records ++ [last]).
Proof.
  intros Hrs (HL & HS & Hend) Htext. rewrite process_stream_text, Htext.
  pose proof (process_blocks [] (candidate_text (fst last) (snd last))
                records (List.Forall_nil _) Hrs) as Hp.
  simpl in Hp. rewrite Hp, map_app. f_equal. simpl.
  set (pre := if records is [] then [] else [newline]).
  assert (Forall (λ c, isspace c = true) pre) as Hpre
    by (unfold pre; destruct records; by repeat constructor).
  change (match records with [] => candidate_text (fst last) (snd last)
          | _ :: _ => newline :: candidate_text (fst last) (snd last) end)
    with ((if records is [] then [] else [newline])
          ++ candidate_text (fst last) (snd last)).
  fold pre. unfold process_text.
  rewrite drain_no_mark by (by apply contains_end_spaces).
  unfold finish. simpl.
  assert (strip (pre ++ candidate_text (fst last) (snd last))
          = record_text (fst last) (snd last)) as ->.
  { unfold candidate_text. apply strip_spaces_around; try done.
    - by apply record_text_stripped.
    - by repeat constructor. }
  assert (falsy (record_text (fst last) (snd last)) = false) as -> by done.
  assert (contains LYRIC_PREFIX (record_text (fst last) (snd last)) = true)
    as ->.
  { apply startswith_contains. unfold record_text.
    rewrite <- app_assoc. apply startswith_prefix. }
  by rewrite parse_record_text.
Qed.

End ParserRoundTrip.

Section ParserRoundTripExamples.

Import Storage LLM Samples.

Ltac not_in_literal :=
  let Hin := fresh "Hin" in
  intros Hin; vm_compute in Hin;
  repeat (apply elem_of_cons in Hin as [Hin|Hin]; [done|]);
  by apply elem_of_nil in Hin.

Ltac clean_literal :=
  split; [discriminate | split; [vm_compute; reflexivity | not_in_literal]].

Ltac well_formed_literal :=
  split; [clean_literal | split; [clean_literal | vm_compute; reflexivity]].

Lemma prompt_records_well_formed : Forall well_formed prompt_records.
Proof.
  unfold prompt_records.
  constructor; [well_formed_literal|].
  constructor; [well_formed_literal|]. constructor.
Qed.

Lemma blocks_round_trip_witness :
  _process_stream [Some [take 30 prompt_reply]; Some [drop 30 prompt_reply]]
  = [line (py "I walk alone at night") (py "lonely city street");
     line (py "The moon follows me") (py "moonlit city street")].
Proof.
  apply (blocks_round_trip
           [Some [take 30 prompt_reply]; Some [drop 30 prompt_reply]]
           prompt_records prompt_records_well_formed).
  vm_compute. reflexivity.
Defined.

Lemma unfinished_last_record_kept_witness :
  _process_stream
    [Some [prompt_reply];
     Some [candidate_text (py "Footsteps echo behind") (py "shadowed alleyway")]]
  = [line (py "I walk alone at night") (py "lonely city street");
     line (py "The moon follows me") (py "moonlit city street");
     line (py "Footsteps echo behind") (py "shadowed alleyway")].
Proof.
  apply (unfinished_last_record_kept
           [Some [prompt_reply];
            Some [candidate_text (py "Footsteps echo behind")
                    (py "shadowed alleyway")]]
           prompt_records
           (py "Footsteps echo behind", py "shadowed alleyway")
           prompt_records_well_formed).
  - well_formed_literal.
  - vm_compute. reflexivity.
Defined.

End ParserRoundTripExamples.

Section ParserOutput.

Import Storage LLM.

Lemma parse_line_tidy (result : analysis_data) (l : str) :
  newline ∉ l → tidy (lyric result) → tidy (sentence result) →
  tidy (lyric (parse_line result l)) ∧ tidy (sentence (parse_line result l)).
Proof.
  intros Hl Hly Hse.
  assert (∀ n, tidy (Some (strip (drop n (strip l))))) as Hnew.
  { intros n v [= <-]. split; [apply strip_idemp|].
    intros Hin. apply Hl.
    by apply strip_subseteq, subseteq_drop, strip_subseteq in Hin. }
  unfold parse_line.
  destruct (startswith LYRIC_PREFIX (strip l));
    [split; [apply Hnew | exact Hse]|].
  destruct (startswith SENTENCE_PREFIX (strip l));
    [split; [exact Hly | apply Hnew] | by split].
Qed.

Lemma parse_lines_tidy (lines : list str) (result : analysis_data) :
  Forall (λ l, newline ∉ l) lines →
  tidy (lyric result) → tidy (sentence result) →
  tidy (lyric (foldl parse_line result lines))
  ∧ tidy (sentence (foldl parse_line result lines)).
Proof.
  intros Hlines. revert result.
  induction Hlines as [|l lines Hl _ IH]; intros result Hly Hse; [done|].
  simpl. destruct (parse_line_tidy result l Hl Hly Hse). by apply IH.
Qed.

(** What [parse_section] returns has two clean fields. *)
Lemma parse_section_clean (section : str) (d : analysis_data) :
  parse_section section = Some d →
  ∃ L S, d = line L S ∧ clean L ∧ clean S.
Proof.
  unfold parse_section. destruct (falsy (strip section)); [done|].
  destruct (parse_lines_tidy (split_char newline (strip section))
              {| lyric := None; sentence := None |}
              (split_char_pieces _ _)) as [Hly Hse];
    [by intros v | by intros v |].
  destruct (foldl parse_line _ _) as [[L|] [S|]]; simpl; try done.
  - destruct (falsy L) eqn:HL; [done|]. destruct (falsy S) eqn:HS; [done|].
    intros [= <-]. exists L, S. apply falsy_false in HL, HS.
    destruct (Hly L eq_refl), (Hse S eq_refl). by repeat split.
  - by destruct (falsy L).
Qed.

Lemma drain_records (buffer : str) (d : analysis_data) :
  d ∈ fst (drain buffer) → ∃ section, parse_section section = Some d.
Proof.
  induction buffer as [buffer IH] using length_ind.
  rewrite drain_eq.
  destruct (split_first END_MARK buffer) as [[before after]|] eqn:Hs;
    [|by intros ?%elem_of_nil].
  pose proof (split_first_end_shorter _ _ _ Hs) as Hlt.
  specialize (IH after Hlt).
  destruct (drain after) as [out rest]. simpl in *.
  intros [Hd|Hd]%elem_of_app; [|by apply IH].
  unfold emit_section in Hd. destruct (falsy (strip before));
    [by apply elem_of_nil in Hd|].
  destruct (parse_section (strip before)) as [d'|] eqn:Hp;
    [|by apply elem_of_nil in Hd].
  apply list_elem_of_singleton in Hd as ->. by exists (strip before).
Qed.

(** X20: Every record handed to the callback, whether the stream is read to its
    end or breaks off after some chunks, has a lyric and a sentence, both
    non-empty, stripped and on one line. *)
Theorem emitted_records_clean (run : attempt_run) (d : analysis_data) :
  d ∈ stored_by run →
  ∃ L S, d = line L S ∧ clean L ∧ clean S.
Proof.
  intros Hd.
  assert (∃ section, parse_section section = Some d) as [section Hp];
    [|by eapply parse_section_clean].
  unfold stored_by in Hd.
  assert (∀ chunks, d ∈ fst (feed_all chunks) →
            ∃ section, parse_section section = Some d) as Hfeed.
  { intros chunks Hin. unfold feed_all in Hin.
    rewrite foldl_feed in Hin by done. simpl in Hin.
    destruct (drain (stream_text chunks)) as [out rest] eqn:Hdr.
    simpl in Hin. eapply drain_records. by rewrite Hdr. }
  destruct (raised run); [by apply (Hfeed (delivered run))|].
  unfold _process_stream in Hd.
  destruct (feed_all (delivered run)) as [out buffer] eqn:Hf.
  apply elem_of_app in Hd as [Hd|Hd].
  - apply Hfeed with (chunks := delivered run). by rewrite Hf.
  - unfold finish in Hd. destruct (falsy (strip buffer));
      [by apply elem_of_nil in Hd|].
    destruct (_ || _); [|by apply elem_of_nil in Hd].
    destruct (parse_section (strip buffer)) as [d'|] eqn:Hp;
      [|by apply elem_of_nil in Hd].
    apply list_elem_of_singleton in Hd as ->. by exists (strip buffer).
Qed.

Lemma emitted_records_clean_witness :
  ∃ L S, line (py "a") (py "b") = line L S ∧ clean L ∧ clean S.
Proof.
  apply (emitted_records_clean
           {| delivered := [Some [Samples.two_records_text]];
              raised := Some ServiceUnavailable |}).
  vm_compute. left.
Defined.

Lemma sentence_line_not_lyric (s : str) :
  startswith SENTENCE_PREFIX s = true → startswith LYRIC_PREFIX s = false.
Proof.
  intros Hs%startswith_inv. rewrite Hs. reflexivity.
Qed.

(** The fields after one round of the line loop, in terms of the values
    the line carries. *)
Lemma parse_line_fields (result : analysis_data) (l : str) :
  lyric (parse_line result l)
    = match field_value LYRIC_PREFIX l with
      | Some v => Some v
      | None => lyric result
      end
  ∧ sentence (parse_line result l)
    = match field_value SENTENCE_PREFIX l with
      | Some v => Some v
      | None => sentence result
      end.
Proof.
  unfold parse_line, field_value.
  destruct (startswith SENTENCE_PREFIX (strip l)) eqn:Hs.
  - by rewrite (sentence_line_not_lyric _ Hs).
  - by destruct (startswith LYRIC_PREFIX (strip l)).
Qed.

Lemma parse_lines_keep (prefix : str) (field : analysis_data → option str)
    (lines : list str) (result : analysis_data) :
  (∀ r l, field (parse_line r l)
          = match field_value prefix l with
            | Some v => Some v
            | None => field r
            end) →
  Forall (λ l, field_value prefix l = None) lines →
  field (foldl parse_line result lines) = field result.
Proof.
  intros Hstep Hlines. revert result.
  induction Hlines as [|l lines Hl _ IH]; intros result; [done|].
  simpl. by rewrite IH, Hstep, Hl.
Qed.

(** X21: Within a section the last LYRIC line and the last SENTENCE line are the
    ones that count: a line that carries a value for a prefix, with no line
    carrying that prefix after it, gives the field of the record. *)
Theorem last_field_line_wins (section : str) (before after : list str)
    (l v : str) (d : analysis_data) :
  split_char newline (strip section) = before ++ l :: after →
  parse_section section = Some d →
  (field_value LYRIC_PREFIX l = Some v →
   Forall (λ l', field_value LYRIC_PREFIX l' = None) after →
   lyric d = Some v)
  ∧ (field_value SENTENCE_PREFIX l = Some v →
     Forall (λ l', field_value SENTENCE_PREFIX l' = None) after →
     sentence d = Some v).
Proof.
  intros Hlines. unfold parse_section.
  destruct (falsy (strip section)); [done|]. rewrite Hlines.
  destruct (_ && _); [|done]. intros [= <-].
  rewrite foldl_app. cbn [foldl]. split; intros Hl Hafter.
  - rewrite (parse_lines_keep LYRIC_PREFIX lyric);
      [|intros; apply parse_line_fields | done].
    destruct (parse_line_fields (foldl parse_line (mk_analysis None None) before) l)
      as [-> _].
    by rewrite Hl.
  - rewrite (parse_lines_keep SENTENCE_PREFIX sentence);
      [|intros; apply parse_line_fields | done].
    destruct (parse_line_fields (foldl parse_line (mk_analysis None None) before) l)
      as [_ ->].
    by rewrite Hl.
Qed.

Lemma last_field_line_wins_witness :
  parse_section (py "LYRIC: old" ++ [newline] ++ py "SENTENCE: s"
                 ++ [newline] ++ py "LYRIC: new")
  = Some (line (py "new") (py "s")).
Proof.
  set (section := py "LYRIC: old" ++ [newline] ++ py "SENTENCE: s"
                  ++ [newline] ++ py "LYRIC: new").
  assert (∃ d, parse_section section = Some d) as [d Hd]
    by (eexists; vm_compute; reflexivity).
  destruct (last_field_line_wins section [py "LYRIC: old"] [py "LYRIC: new"]
              (py "SENTENCE: s") (py "s") d eq_refl Hd) as [_ Hs].
  destruct (last_field_line_wins section
              [py "LYRIC: old"; py "SENTENCE: s"] []
              (py "LYRIC: new") (py "new") d eq_refl Hd) as [Hl _].
  rewrite Hd. destruct d as [dl ds]. simpl in *.
  rewrite Hl, Hs; [reflexivity | reflexivity | | reflexivity |].
  - constructor; [reflexivity | constructor].
  - constructor.
Defined.

End ParserOutput.

(** ** The title monitor and the lyric handler *)

Section TitleFacts.

Import Storage.

(** X22: [get_song_title] returns the stripped text of the first lookup that
    does not find a stale element, if that is one of the first three and
    it finds the element; otherwise it returns nothing. *)
Theorem get_song_title_result (find_element : nat → SongInfo.lookup)
    (title : str) :
  SongInfo.get_song_title (Some find_element) = Some title ↔
  ∃ n text, n < 3
    ∧ (∀ k, k < n → find_element k = SongInfo.StaleElementReference)
    ∧ find_element n = SongInfo.Found text
    ∧ title = strip text.
Proof.
  unfold SongInfo.get_song_title. simpl. split.
  - destruct (find_element 0) as [t0| | |] eqn:H0; try done.
    { intros [= <-]. exists 0, t0. split_and!; [lia | intros; lia | done..]. }
    destruct (find_element 1) as [t1| | |] eqn:H1; try done.
    { intros [= <-]. exists 1, t1. split_and!; [lia | | done..].
      intros k Hk. by replace k with 0 by lia. }
    destruct (find_element 2) as [t2| | |] eqn:H2; try done.
    intros [= <-]. exists 2, t2. split_and!; [lia | | done..].
    intros k Hk. assert (k = 0 ∨ k = 1) as [-> | ->] by lia; done.
  - intros (n & text & Hn & Hstale & Hfound & ->).
    assert (n = 0 ∨ n = 1 ∨ n = 2) as [-> | [-> | ->]] by lia.
    + by rewrite Hfound.
    + by rewrite (Hstale 0), Hfound by lia.
    + by rewrite (Hstale 0), (Hstale 1), Hfound by lia.
Qed.

End TitleFacts.

Section MonitorFacts.

Import Storage LLM Main.

(** What a round of the monitor does: nothing, or the detection of a new
    non-empty title. *)
Lemma poll_cases (m : monitor) driver full_lyrics thread_starts :
  SongInfo.current_song_title (song_info m) = last_processed_title m →
  poll m driver full_lyrics thread_starts = m
  ∨ ∃ title,
      title ≠ [] ∧ last_processed_title m ≠ Some title
      ∧ SongInfo.get_song_title driver = Some title
      ∧ song_info (poll m driver full_lyrics thread_starts)
        = {| SongInfo.current_song_title := Some title;
             SongInfo.song_title_history :=
               SongInfo.song_title_history (song_info m) ++ [title] |}
      ∧ storage (poll m driver full_lyrics thread_starts)
        = start_new_song (storage m) title
      ∧ last_processed_title (poll m driver full_lyrics thread_starts)
        = Some title
      ∧ llm_client (poll m driver full_lyrics thread_starts) = llm_client m
      ∧ (analyses (poll m driver full_lyrics thread_starts) = analyses m
         ∨ analyses (poll m driver full_lyrics thread_starts)
           = analyses m ++ [full_lyrics]
           ∧ full_lyrics ≠ [] ∧ isspace_str full_lyrics = false).
Proof.
  intros Hagree. unfold poll, SongInfo.update_song_title.
  destruct (SongInfo.get_song_title driver) as [title|]; [|left; by destruct m].
  destruct (falsy title) eqn:Ht; simpl; [left; by destruct m|].
  rewrite Hagree.
  destruct (bool_decide (Some title = last_processed_title m)) eqn:Hlast;
    simpl; [left; by destruct m|].
  rewrite Ht, Hlast. simpl. right. exists title.
  apply falsy_false in Ht. apply bool_decide_eq_false in Hlast.
  split_and!; try done.
  unfold analyze_lyrics_in_background.
  destruct (falsy full_lyrics) eqn:Hl; [by left|]. simpl.
  destruct (isspace_str full_lyrics) eqn:Hs; [by left|].
  destruct (llm_client m); simpl; [|by left].
  destruct thread_starts; [|by left].
  right. by apply falsy_false in Hl.
Qed.

Lemma step_in_step (m : monitor) (e : event) : in_step m → in_step (step m e).
Proof.
  intros (Hsi & Hst & Hlast & Hr). destruct e as [driver lyr ts|d]; simpl.
  - destruct (poll_cases m driver lyr ts Hsi)
      as [->|(title & Hne & _ & _ & Hsi' & Hst' & Hlast' & _)]; [done|].
    unfold in_step. rewrite Hsi', Hst', Hlast'. simpl.
    split_and!; [done | | by rewrite last_snoc | by apply reach_start].
    unfold start_new_song. apply falsy_false in Hne. by rewrite Hne.
  - unfold in_step. simpl. rewrite add_keeps_current.
    split_and!; try done. by apply reach_add.
Qed.

Lemma run_in_step (m : monitor) (events : list event) :
  in_step m → in_step (run m events).
Proof.
  revert m. induction events as [|e events IH]; intros m Hm; [done|].
  simpl. by apply IH, step_in_step.
Qed.

Lemma start_in_step (client : bool) : in_step (start client).
Proof. unfold in_step; simpl. split_and!; try done. constructor. Qed.

(** X23: Through any rounds of the monitor and any records stored in between,
    the current song of the store is the title detected last, which is
    also the current title of [SongInfo], never the empty one. *)
Theorem store_follows_monitor (client : bool) (events : list event) :
  let m := run (start client) events in
  get_current_song_title (storage m) = last_processed_title m
  ∧ SongInfo.current_song_title (song_info m) = last_processed_title m
  ∧ last (SongInfo.song_title_history (song_info m)) = last_processed_title m
  ∧ last_processed_title m ≠ Some [].
Proof.
  intros m.
  destruct (run_in_step (start client) events (start_in_step client))
    as (Hsi & Hst & Hlast & Hr).
  split_and!; try done.
  intros Hempty. fold m in Hst, Hr. rewrite Hempty in Hst.
  by apply (reachable_current_nonempty _ _ Hr Hst).
Qed.

(** X24: A round that detects a title starts that song from an empty table,
    also when the song was analysed before. *)
Theorem detection_resets_table (m : monitor) driver full_lyrics thread_starts :
  SongInfo.current_song_title (song_info m) = last_processed_title m →
  last_processed_title (poll m driver full_lyrics thread_starts)
    ≠ last_processed_title m →
  ∃ title,
    last_processed_title (poll m driver full_lyrics thread_starts) = Some title
    ∧ get_current_song_title (storage (poll m driver full_lyrics thread_starts))
      = Some title
    ∧ get_analysis_dict_for_song
        (storage (poll m driver full_lyrics thread_starts)) title
      = Some ∅.
Proof.
  intros Hsi Hchange.
  destruct (poll_cases m driver full_lyrics thread_starts Hsi)
    as [Hsame|(title & Hne & _ & _ & _ & Hst & Hlast & _)];
    [by rewrite Hsame in Hchange|].
  exists title. rewrite Hst, Hlast.
  unfold get_current_song_title, get_analysis_dict_for_song, start_new_song.
  apply falsy_false in Hne. rewrite Hne. simpl.
  by rewrite lookup_insert_eq.
Qed.

End MonitorFacts.

Section HistoryFacts.

Import Storage LLM Main.

Lemma run_snoc (m : monitor) (events : list event) (e : event) :
  run m (events ++ [e]) = step (run m events) e.
Proof. unfold run. by rewrite foldl_app. Qed.

(** X25: The title history holds no empty title and changes from each entry to
    the next: a song is entered again only after another one. *)
Theorem history_records_changes (client : bool) (events : list event) :
  let history :=
    SongInfo.song_title_history (song_info (run (start client) events)) in
  Forall (λ title, title ≠ []) history
  ∧ ∀ i a b, history !! i = Some a → history !! S i = Some b → a ≠ b.
Proof.
  induction events as [|e events IH] using rev_ind; simpl.
  { split; [constructor|]. intros i a b Ha. by rewrite lookup_nil in Ha. }
  rewrite run_snoc.
  pose proof (run_in_step (start client) events (start_in_step client))
    as (Hsi & _ & Hlast & _).
  set (m := run (start client) events) in *.
  destruct IH as [IHne IHadj].
  destruct e as [driver lyr ts|d]; simpl; [|done].
  destruct (poll_cases m driver lyr ts Hsi)
    as [->|(title & Hne & Hnew & _ & -> & _)]; [done|]. simpl.
  split.
  - apply Forall_app. split; [done|]. by constructor.
  - intros i a b Ha Hb.
    destruct (decide (S i < length (SongInfo.song_title_history (song_info m))))
      as [Hlt|Hge].
    + rewrite lookup_app_l in Ha, Hb by lia. by eapply IHadj.
    + assert (S i = length (SongInfo.song_title_history (song_info m))) as Hi.
      { apply lookup_lt_Some in Hb. rewrite length_app in Hb. simpl in Hb. lia. }
      rewrite lookup_app_l in Ha by lia.
      rewrite lookup_app_r, Hi, Nat.sub_diag in Hb by lia.
      injection Hb as <-.
      rewrite last_lookup, <- Hi in Hlast. simpl in Hlast.
      rewrite Ha in Hlast. intros ->. by apply Hnew.
Qed.

(** X26: An analysis is started at most once for each title entered in the
    history, only on lyrics that are neither empty nor blank, and never
    without a client. *)
Theorem analyses_follow_detections (client : bool) (events : list event) :
  let m := run (start client) events in
  length (analyses m) ≤ length (SongInfo.song_title_history (song_info m))
  ∧ Forall (λ lyrics, lyrics ≠ [] ∧ isspace_str lyrics = false) (analyses m)
  ∧ (client = false → analyses m = []).
Proof.
  assert (∀ m driver lyr ts,
            analyses (poll m driver lyr ts) ≠ analyses m → llm_client m = true)
    as Hclient.
  { intros m driver lyr ts. unfold poll, SongInfo.update_song_title.
    destruct (SongInfo.get_song_title driver) as [title|]; [|done].
    destruct (_ || _); [done|].
    destruct (_ && _); [|done]. simpl.
    destruct (falsy lyr); [done|]. unfold analyze_lyrics_in_background.
    destruct (_ || _); [done|]. by destruct (llm_client m). }
  induction events as [|e events IH] using rev_ind; simpl.
  { split_and!; [done | constructor | done]. }
  rewrite run_snoc.
  pose proof (run_in_step (start client) events (start_in_step client))
    as (Hsi & _).
  assert (llm_client (run (start client) events) = client) as Hllm.
  { clear. induction events as [|e events IH] using rev_ind; [done|].
    rewrite run_snoc. destruct e as [driver lyr ts|d]; simpl; [|done].
    unfold poll. destruct (SongInfo.update_song_title _ _) as [si [title|]];
      [|done]. by destruct (_ && _). }
  set (m := run (start client) events) in *.
  destruct IH as (IHlen & IHall & IHclient).
  destruct e as [driver lyr ts|d]; simpl; [|done].
  pose proof (Hclient m driver lyr ts) as Hchanged.
  destruct (poll_cases m driver lyr ts Hsi)
    as [->|(title & _ & _ & _ & -> & _ & _ & _ & Han)]; [done|]. simpl.
  rewrite length_app. simpl.
  destruct Han as [->|(Han & Hne & Hblank)].
  - split_and!; [lia | done | done].
  - rewrite Han, length_app. simpl. split_and!; [lia | |].
    + apply Forall_app. split; [done|]. by constructor.
    + intros ->. rewrite Hllm, Han, (IHclient eq_refl) in Hchanged.
      by discriminate Hchanged.
Qed.

End HistoryFacts.

Section LyricFacts.

Import Storage LLM Searcher Main.

Context {F : Type} `{FloatOps F} {ties : TieOrder F}.

(** What a handler has gone through when it ends with the path of a top
    match. *)
Lemma handle_top_match (platform_raises : str → bool)
    (st : SongAnalysisStorage) (clip : str → clip_run F)
    (s : ImageSearcher F) (lyric_line path : str) (result : outcome F) :
  handle_new_lyric platform_raises (Some st) (Some clip) (Some s) lyric_line
    = result →
  (∃ score visual_sentence, result = Display path score visual_sentence)
  ∨ result = RaisesFromRelpath path →
  ∃ title visual_sentence query score others,
    get_current_song_title st = Some title ∧ title ≠ []
    ∧ find_analysis_by_lyric st title lyric_line = Some visual_sentence
    ∧ visual_sentence ≠ []
    ∧ clip visual_sentence = Features query
    ∧ search s (Some query) TOP_K_RESULTS = Some ((path, score) :: others)
    ∧ result = if relpath_raises platform_raises path
               then RaisesFromRelpath path
               else Display path score visual_sentence.
Proof.
  unfold handle_new_lyric, generate_embedding.
  destruct (get_current_song_title st) as [title|];
    [|intros <- [(? & ? & ?)|?]; done].
  destruct (falsy title) eqn:Ht; [intros <- [(? & ? & ?)|?]; done|].
  destruct (find_analysis_by_lyric st title lyric_line) as [vs|] eqn:Hfind;
    [|intros <- [(? & ? & ?)|?]; done].
  destruct (falsy vs) eqn:Hvs; [intros <- [(? & ? & ?)|?]; done|].
  destruct (clip vs) as [| |query] eqn:Hclip;
    [intros <- [(? & ? & ?)|?]; done..|].
  destruct (search s (Some query) TOP_K_RESULTS) as [[|[p v] others]|] eqn:Hs;
    [intros <- [(? & ? & ?)|?]; done| |intros <- [(? & ? & ?)|?]; done].
  apply falsy_false in Ht, Hvs.
  intros Hres Hshape.
  assert (p = path) as ->.
  { destruct (relpath_raises platform_raises p); subst result.
    - destruct Hshape as [(? & ? & ?)|[= ->]]; done.
    - destruct Hshape as [(? & ? & [= -> _ _])|?]; done. }
  exists title, vs, query, v, others. by split_and!.
Qed.

(** X27: The image the handler displays is an image of the index, found for
    the sentence stored for the line under the current song, and its path
    is not empty; with a path for every embedding, no image of the index
    scores above it. *)
Theorem displayed_image_is_best_match `{!ScoreOrder F}
    (platform_raises : str → bool)
    (st : SongAnalysisStorage) (clip : str → clip_run F)
    (s : ImageSearcher F) (lyric_line path : str) (score : F)
    (visual_sentence : str) :
  handle_new_lyric platform_raises (Some st) (Some clip) (Some s) lyric_line
    = Display path score visual_sentence →
  ∃ title query images paths,
    get_current_song_title st = Some title
    ∧ find_analysis_by_lyric st title lyric_line = Some visual_sentence
    ∧ clip visual_sentence = Features query
    ∧ normalized_image_embeddings s = Some images
    ∧ image_paths s = Some paths
    ∧ path ∈ paths
    ∧ (length (rows images) ≤ length paths →
       ∀ row, row ∈ rows images →
              flt score (dot (normalize_row query) row) = false)
    ∧ path ≠ [].
Proof.
  intros Hrun.
  destruct (handle_top_match _ _ _ _ _ path _ Hrun)
    as (title & vs & query & v & others & Hcur & _ & Hfind & _ & Hclip
        & Hsearch & Hres).
  { left. by exists score, visual_sentence. }
  destruct (relpath_raises platform_raises path) eqn:Hpath; [done|].
  injection Hres as <- <-.
  apply search_Some in Hsearch
    as (images & paths & sims & Himg & Hpaths & _ & Hsims & Hres).
  symmetry in Hres. apply collect_top_head in Hres as [Hin Hmax].
  exists title, query, images, paths. split_and!; try done.
  - intros Hlen row Hrow. apply Hmax.
    + by rewrite Hsims, length_map.
    + rewrite Hsims. apply list_elem_of_In, in_map, list_elem_of_In, Hrow.
  - apply orb_false_elim in Hpath as [Hne _]. by apply falsy_false.
Qed.



End LyricFacts.

Section LyricExamples.

Import Storage LLM Searcher Main Samples.

(** On the index of this section the two scores differ; [np.argsort] is
    run with equal scores in index order, and [os.path.relpath] as on a
    platform where it raises on the empty path only. *)
#[local] Existing Instance index_order.

Lemma displayed_image_is_best_match_witness :
  ∃ score query,
    handle_new_lyric (λ _, false) (Some greeting_store)
      (Some (λ _, Features [0; 1]%float)) (Some two_searcher) (py "hi")
    = Display (py "b.jpg") score (py "s")
    ∧ py "b.jpg" ∈ two_paths
    ∧ flt score (dot (normalize_row query) (normalize_row [1; 0]%float))
      = false.
Proof.
  assert (∃ score,
    handle_new_lyric (λ _, false) (Some greeting_store)
      (Some (λ _, Features [0; 1]%float)) (Some two_searcher) (py "hi")
    = Display (py "b.jpg") score (py "s")) as [score Hrun]
    by (eexists; vm_compute; reflexivity).
  destruct (displayed_image_is_best_match _ _ _ _ _ _ _ _ Hrun)
    as (title & query & images & paths & _ & _ & _ & Himg & Hpaths & Hin
        & Hmax & _).
  injection Himg as <-. injection Hpaths as <-.
  exists score, query. split_and!; [done | done |].
  apply Hmax; [simpl; lia | simpl; left].
Defined.



End LyricExamples.

Section MonitorExamples.

Import Storage LLM Main Samples.

Lemma detection_resets_table_witness :
  get_analysis_dict_for_song (storage (run (start true) two_songs)) (py "A")
    = Some {[ py "hi" := py "s" ]}
  ∧ ∃ title,
      last_processed_title
        (poll (run (start true) two_songs) (page (py "A")) (py "la la") true)
      = Some title
      ∧ get_current_song_title
          (storage (poll (run (start true) two_songs) (page (py "A"))
                      (py "la la") true))
        = Some title
      ∧ get_analysis_dict_for_song
          (storage (poll (run (start true) two_songs) (page (py "A"))
                      (py "la la") true)) title
        = Some ∅.
Proof.
  split; [vm_compute; reflexivity|].
  apply (detection_resets_table (run (start true) two_songs)
           (page (py "A")) (py "la la") true).
  - vm_compute. reflexivity.
  - vm_compute. discriminate.
Defined.

Lemma history_records_changes_witness :
  SongInfo.song_title_history (song_info (run (start true) two_songs))
    = [py "A"; py "B"]
  ∧ py "A" ≠ py "B".
Proof.
  split; [vm_compute; reflexivity|].
  apply (proj2 (history_records_changes true two_songs) 0);
    vm_compute; reflexivity.
Defined.

Lemma analyses_follow_detections_witness :
  analyses (run (start true) two_songs) = [py "la la"]
  ∧ analyses (run (start false) two_songs) = [].
Proof.
  split; [vm_compute; reflexivity|].
  by apply (analyses_follow_detections false two_songs).
Defined.

End MonitorExamples.
